(** * bitprim-network: the channel proxy and the connection registry

    A shallow embedding of [src/proxy.cpp] (with the inline members of
    [include/bitcoin/network/proxy.hpp]) and of
    [src/collections/connections.cpp].

    Conventions.
    - The C++ classes become modules ([connections], [proxy]) whose state
      record is [t]; a member function becomes a function on [t] that
      returns the new state (and the value handed to the completion
      handler, where there is one).
    - Unsigned integers ([uint32_t], [uint64_t], [size_t]) are [N]; none of
      the modelled code does arithmetic on them, only comparisons.
    - A [channel::ptr] is an address; the channel objects live in a heap
      that the registry reads but never writes.
    - Handlers are opaque callbacks: invoking one is recorded as an event in
      the trace of the proxy, in program order, and so are the requests
      made to the socket and the hooks of the derived class.
    - Locks are left out (every member function is modelled as atomic) and
      so is logging. *)

From Stdlib Require Import Strings.String.
From Stdlib Require Strings.Byte.
From Stdlib Require Import List NArith ZArith Bool Lia Permutation.
Import ListNotations.

Set Implicit Arguments.

(** ** Shared vocabulary *)

(** The error codes the modelled code constructs or forwards
    ([bc::error]); transport and parse errors keep their kind. *)
Inductive code : Type :=
| success
| operation_failed
| channel_stopped
| bad_stream
| service_stopped
| address_in_use
| not_found
| transport_error (kind : N)
| parse_error (kind : N).

(** [if (ec)] on a [code]. *)
Definition code_is_error (ec : code) : bool :=
  match ec with success => false | _ => true end.

(** [config::authority]: address and port, compared structurally. *)
Record authority : Type := { ip : N; port : N }.

Definition authority_eqb (a b : authority) : bool :=
  N.eqb (ip a) (ip b) && N.eqb (port a) (port b).

Definition data_chunk : Type := list Byte.byte.

(** ** connections.cpp *)

Module connections.

(** What the registry reads of a channel object. *)
Record channel : Type := { channel_authority : authority; nonce : N }.

Definition channel_ptr : Type := N.

(** [std::vector<channel::ptr> channels_] and [std::atomic<bool> stopped_]. *)
Record t : Type := { channels_ : list channel_ptr; stopped_ : bool }.

(** [connections::connections]: not stopped, no channels (the reserve
    only sizes the vector). *)
Definition construct : t := {| channels_ := []; stopped_ := false |}.

(** [std::find_if]: position of the first element satisfying [p], or the
    length of the list for [end()]. *)
Fixpoint find_if (A : Type) (p : A -> bool) (l : list A) : nat :=
  match l with
  | [] => 0
  | x :: l' => if p x then 0 else S (find_if p l')
  end.

(** [std::find] on shared pointers compares the addresses. *)
Definition find (l : list channel_ptr) (c : channel_ptr) : nat :=
  find_if (N.eqb c) l.

(** [vector::erase(it)]. *)
Definition erase (A : Type) (l : list A) (it : nat) : list A :=
  firstn it l ++ skipn (S it) l.

Section with_heap.

Variable heap : channel_ptr -> channel.

Definition safe_copy (r : t) : list channel_ptr := channels_ r.

Definition safe_exists (r : t) (address : authority) : bool :=
  let it :=
    find_if (fun entry => authority_eqb (channel_authority (heap entry)) address)
            (channels_ r) in
  negb (Nat.eqb it (length (channels_ r))).

Definition safe_remove (r : t) (c : channel_ptr) : bool * t :=
  let it := find (channels_ r) c in
  let found := negb (Nat.eqb it (length (channels_ r))) in
  if found
  then (true, {| channels_ := erase (channels_ r) it; stopped_ := stopped_ r |})
  else (false, r).

Definition remove (r : t) (c : channel_ptr) : code * t :=
  let (removed, r') := safe_remove r c in
  ((if removed then success else not_found), r').

(** The lambda [match] of [safe_store]. *)
Definition store_match (c : channel_ptr) (entry : channel_ptr) : bool :=
  authority_eqb (channel_authority (heap entry)) (channel_authority (heap c))
  || N.eqb (nonce (heap entry)) (nonce (heap c)).

Definition safe_store (r : t) (c : channel_ptr) : code * t :=
  let stopped := stopped_ r in
  (* Stopped and found are the only ways to get here. *)
  let refused := ((if stopped then service_stopped else address_in_use), r) in
  if negb stopped then
    let it := find_if (store_match c) (channels_ r) in
    let found := negb (Nat.eqb it (length (channels_ r))) in
    if negb found
    then (success, {| channels_ := channels_ r ++ [c]; stopped_ := stopped_ r |})
    else refused
  else refused.

Definition store (r : t) (c : channel_ptr) : code * t := safe_store r c.

Definition safe_count (r : t) : nat := length (channels_ r).

(** [connections::stop]: the first call marks the registry stopped and
    snapshots the members; the second component lists the
    [channel->stop(ec)] calls issued after the lock is released. *)
Definition stop (r : t) (ec : code) : t * list (channel_ptr * code) :=
  if negb (stopped_ r)
  then ({| channels_ := channels_ r; stopped_ := true |},
        map (fun c => (c, ec)) (channels_ r))
  else (r, []).

(** The calls a client can make on a registry. *)
Inductive op : Type :=
| op_store (c : channel_ptr)
| op_remove (c : channel_ptr)
| op_stop (ec : code).

Definition apply_op (r : t) (o : op) : t :=
  match o with
  | op_store c => snd (store r c)
  | op_remove c => snd (remove r c)
  | op_stop ec => fst (stop r ec)
  end.

Definition run_from (r : t) (ops : list op) : t := fold_left apply_op ops r.

(** The registry after [ops], starting from a fresh one. *)
Definition run (ops : list op) : t := run_from construct ops.

(** The result of [store] as the registry's contract words it. *)
Inductive store_outcome (r : t) (c : channel_ptr) : code * t -> Prop :=
| store_refused_stopped :
    stopped_ r = true ->
    store_outcome r c (service_stopped, r)
| store_refused_duplicate (m : channel_ptr) :
    stopped_ r = false ->
    In m (channels_ r) ->
    channel_authority (heap m) = channel_authority (heap c)
    \/ nonce (heap m) = nonce (heap c) ->
    store_outcome r c (address_in_use, r)
| store_accepted :
    stopped_ r = false ->
    (forall m, In m (channels_ r) ->
               channel_authority (heap m) <> channel_authority (heap c)
               /\ nonce (heap m) <> nonce (heap c)) ->
    store_outcome r c
      (success, {| channels_ := channels_ r ++ [c]; stopped_ := stopped_ r |}).

(** Members pairwise differ in authority and in nonce. *)
Definition unique_members (r : t) : Prop :=
  NoDup (map (fun c => channel_authority (heap c)) (channels_ r))
  /\ NoDup (map (fun c => nonce (heap c)) (channels_ r)).

End with_heap.

(** [remove] called for each channel of [order], in order: what the stop
    handlers of the channels do after [connections::stop]. *)
Definition remove_each (r : t) (order : list channel_ptr) : t :=
  fold_left (fun r' c => snd (remove r' c)) order r.

(** [handler(error)] on the code of a registry operation: 1 if it
    reports success, else 0. *)
Definition succeeded (ec : code) : nat := if code_is_error ec then 0 else 1.

(** A small heap for the examples: channels 1 and 2 are two objects for
    the same peer with the same nonce, channel 3 shares only the
    authority, channel 4 only the nonce, every other address is a peer of
    its own. *)
Definition sample_heap (p : channel_ptr) : channel :=
  match p with
  | 1%N | 2%N => {| channel_authority := {| ip := 16909060; port := 8333 |}; nonce := 42 |}
  | 3%N => {| channel_authority := {| ip := 16909060; port := 8333 |}; nonce := 43 |}
  | 4%N => {| channel_authority := {| ip := 84281096; port := 8333 |}; nonce := 42 |}
  | _ => {| channel_authority := {| ip := p; port := 8333 |}; nonce := (1000 + p)%N |}
  end.

End connections.

(** ** proxy.hpp, proxy.cpp *)

Module proxy.

(** [message::message_type], by the value of the enumerator. *)
Definition message_type : Type := N.

(** [message::heading]: the fields the proxy reads. *)
Record heading : Type := {
  magic : N;
  command : String.string;
  payload_size : N;
  checksum : N
}.

(** [boost_code]: the value of a [boost::system::error_code]; zero is
    success, and [if (ec)] tests for a value other than zero. *)
Definition boost_code : Type := Z.

Definition boost_success : boost_code := 0%Z.

Definition boost_is_error (ec : boost_code) : bool := negb (Z.eqb ec 0).

(** What [proxy.cpp] calls in the libbitcoin base library: the heading
    and message codec, the checksum and the translation of transport
    errors.  The proxy is modelled over any implementation of them. *)
Class External : Type := {
  message : Type;
  (** [heading::maximum_size()]. *)
  maximum_size : nat;
  (** [heading::maximum_payload_size(version)]. *)
  maximum_payload_size : N -> N;
  (** [heading::factory_from_data(buffer)]. *)
  factory_from_data : data_chunk -> heading;
  (** [heading::is_valid()]. *)
  is_valid : heading -> bool;
  (** [heading::type()]. *)
  heading_type : heading -> message_type;
  (** [bitcoin_checksum(buffer)]. *)
  bitcoin_checksum : data_chunk -> N;
  (** Parsing a message of the given type at the given version from a
      stream: the message or the kind of the parse error, and what is
      left of the stream. *)
  from_data : message_type -> N -> data_chunk -> (N + message) * data_chunk;
  (** [message::serialize(version, message, magic)]. *)
  serialize : N -> message -> N -> data_chunk;
  (** [Message::command]. *)
  message_command : message -> String.string;
  (** [error::boost_to_error_code(ec)]. *)
  boost_to_error_code : boost_code -> code
}.

Definition handler : Type := nat.

(** The reads the proxy leaves outstanding on the socket, with the
    arguments bound to the completion handler. *)
Inductive read_op : Type :=
| read_heading_op
| read_payload_op (head : heading).

Section with_external.

Context {E : External}.

(** What the proxy does to its environment, in program order. *)
Inductive event : Type :=
| message_handler_called (h : handler) (ec : code) (m : option message)
| stop_handler_called (h : handler) (ec : code)
| result_handler_called (h : handler) (ec : code)
| handle_activity_called
| handle_stopping_called
| async_read_called (op : read_op) (size : nat)
| async_write_called (buffer : data_chunk) (h : handler)
| socket_close_called.

(** *** The subscribers *)

(** Modelled from the spec: the stop subscriber
    ([subscriber<const code&>] of the base library, absent from the
    sources).  Its handlers are invoked exactly once, with the code
    relayed at stop, and subscribing once it is stopped invokes the
    handler at once with the stopped arguments. *)
Record stop_subscriber : Type := {
  ss_stopped : bool;
  ss_subscriptions : list handler
}.

(** Modelled from the spec: [start] arms the subscriber. *)
Definition ss_start (ss : stop_subscriber) : stop_subscriber :=
  {| ss_stopped := false; ss_subscriptions := ss_subscriptions ss |}.

(** Modelled from the spec: [stop] disables further registration. *)
Definition ss_stop (ss : stop_subscriber) : stop_subscriber :=
  {| ss_stopped := true; ss_subscriptions := ss_subscriptions ss |}.

(** Modelled from the spec: [subscribe] registers the handler, or, once
    stopped, invokes it at once with the stopped argument. *)
Definition ss_subscribe (ss : stop_subscriber) (h : handler) (stopped_arg : code)
  : stop_subscriber * list event :=
  if ss_stopped ss
  then (ss, [stop_handler_called h stopped_arg])
  else ({| ss_stopped := false; ss_subscriptions := ss_subscriptions ss ++ [h] |}, []).

(** Modelled from the spec: [relay] delivers the code to every registered
    handler, which is thereby spent. *)
Definition ss_relay (ss : stop_subscriber) (ec : code)
  : stop_subscriber * list event :=
  ({| ss_stopped := ss_stopped ss; ss_subscriptions := [] |},
   map (fun h => stop_handler_called h ec) (ss_subscriptions ss)).

(** Modelled from the spec: the typed message subscriber
    ([utility/message_subscriber.hpp] of this repository, absent from
    the sources).  A handler registered for a message type is invoked,
    in registration order, for every successfully parsed message of
    that type until the channel stops; at stop it is invoked once with
    [channel_stopped] and discarded; registration is disabled once
    stopped. *)
Record message_subscriber : Type := {
  ms_stopped : bool;
  ms_subscriptions : list (message_type * handler)
}.

(** Modelled from the spec: [start] arms the subscriber. *)
Definition ms_start (ms : message_subscriber) : message_subscriber :=
  {| ms_stopped := false; ms_subscriptions := ms_subscriptions ms |}.

(** Modelled from the spec: [stop] disables further registration. *)
Definition ms_stop (ms : message_subscriber) : message_subscriber :=
  {| ms_stopped := true; ms_subscriptions := ms_subscriptions ms |}.

(** Modelled from the spec: [subscribe<Message>] registers the handler
    for the type of the message; once stopped it does not register, and
    the handler is told [channel_stopped] as a stop handler would be. *)
Definition ms_subscribe (ms : message_subscriber) (ty : message_type) (h : handler)
  : message_subscriber * list event :=
  if ms_stopped ms
  then (ms, [message_handler_called h channel_stopped None])
  else ({| ms_stopped := false;
           ms_subscriptions := ms_subscriptions ms ++ [(ty, h)] |}, []).

(** Modelled from the spec: [broadcast] tells the code to every typed
    handler, with no message, and discards them. *)
Definition ms_broadcast (ms : message_subscriber) (ec : code)
  : message_subscriber * list event :=
  ({| ms_stopped := ms_stopped ms; ms_subscriptions := [] |},
   map (fun th => message_handler_called (snd th) ec None) (ms_subscriptions ms)).

(** Modelled from the spec: the handlers registered for a message type,
    in registration order. *)
Definition handlers_for (ms : message_subscriber) (ty : message_type) : list handler :=
  map snd (filter (fun th => N.eqb (fst th) ty) (ms_subscriptions ms)).

(** Modelled from the spec: [message_subscriber::load], absent from the
    sources: "ask codec to parse (command, version, payload); deliver
    to subscribers".  It returns the code of the parse, the handler
    invocations it made and the stream as the parser left it. *)
Definition ms_load (ms : message_subscriber) (ty : message_type) (version : N)
           (stream : data_chunk) : code * list event * data_chunk :=
  match from_data ty version stream with
  | (inr m, rest) =>
      (success,
       map (fun h => message_handler_called h success (Some m)) (handlers_for ms ty),
       rest)
  | (inl kind, rest) => (parse_error kind, [], rest)
  end.

(** *** The proxy *)

Record t : Type := {
  protocol_magic_ : N;
  authority_ : authority;
  heading_buffer_ : data_chunk;
  payload_buffer_ : data_chunk;
  (** [payload_buffer_.capacity()]: set by the constructor, and never
      changed, as no resize exceeds it. *)
  payload_capacity_ : N;
  (** The read outstanding on [socket_], if any. *)
  pending_read_ : option read_op;
  stopped_ : bool;
  version_ : N;
  message_subscriber_ : message_subscriber;
  stop_subscriber_ : stop_subscriber;
  trace : list event
}.

Definition with_heading_buffer (s : t) (b : data_chunk) : t :=
  {| protocol_magic_ := protocol_magic_ s; authority_ := authority_ s;
     heading_buffer_ := b; payload_buffer_ := payload_buffer_ s;
     payload_capacity_ := payload_capacity_ s; pending_read_ := pending_read_ s;
     stopped_ := stopped_ s; version_ := version_ s;
     message_subscriber_ := message_subscriber_ s;
     stop_subscriber_ := stop_subscriber_ s; trace := trace s |}.

Definition with_payload_buffer (s : t) (b : data_chunk) : t :=
  {| protocol_magic_ := protocol_magic_ s; authority_ := authority_ s;
     heading_buffer_ := heading_buffer_ s; payload_buffer_ := b;
     payload_capacity_ := payload_capacity_ s; pending_read_ := pending_read_ s;
     stopped_ := stopped_ s; version_ := version_ s;
     message_subscriber_ := message_subscriber_ s;
     stop_subscriber_ := stop_subscriber_ s; trace := trace s |}.

Definition with_pending_read (s : t) (p : option read_op) : t :=
  {| protocol_magic_ := protocol_magic_ s; authority_ := authority_ s;
     heading_buffer_ := heading_buffer_ s; payload_buffer_ := payload_buffer_ s;
     payload_capacity_ := payload_capacity_ s; pending_read_ := p;
     stopped_ := stopped_ s; version_ := version_ s;
     message_subscriber_ := message_subscriber_ s;
     stop_subscriber_ := stop_subscriber_ s; trace := trace s |}.

Definition with_stopped (s : t) (b : bool) : t :=
  {| protocol_magic_ := protocol_magic_ s; authority_ := authority_ s;
     heading_buffer_ := heading_buffer_ s; payload_buffer_ := payload_buffer_ s;
     payload_capacity_ := payload_capacity_ s; pending_read_ := pending_read_ s;
     stopped_ := b; version_ := version_ s;
     message_subscriber_ := message_subscriber_ s;
     stop_subscriber_ := stop_subscriber_ s; trace := trace s |}.

Definition with_version (s : t) (v : N) : t :=
  {| protocol_magic_ := protocol_magic_ s; authority_ := authority_ s;
     heading_buffer_ := heading_buffer_ s; payload_buffer_ := payload_buffer_ s;
     payload_capacity_ := payload_capacity_ s; pending_read_ := pending_read_ s;
     stopped_ := stopped_ s; version_ := v;
     message_subscriber_ := message_subscriber_ s;
     stop_subscriber_ := stop_subscriber_ s; trace := trace s |}.

Definition with_message_subscriber (s : t) (ms : message_subscriber) : t :=
  {| protocol_magic_ := protocol_magic_ s; authority_ := authority_ s;
     heading_buffer_ := heading_buffer_ s; payload_buffer_ := payload_buffer_ s;
     payload_capacity_ := payload_capacity_ s; pending_read_ := pending_read_ s;
     stopped_ := stopped_ s; version_ := version_ s;
     message_subscriber_ := ms;
     stop_subscriber_ := stop_subscriber_ s; trace := trace s |}.

Definition with_stop_subscriber (s : t) (ss : stop_subscriber) : t :=
  {| protocol_magic_ := protocol_magic_ s; authority_ := authority_ s;
     heading_buffer_ := heading_buffer_ s; payload_buffer_ := payload_buffer_ s;
     payload_capacity_ := payload_capacity_ s; pending_read_ := pending_read_ s;
     stopped_ := stopped_ s; version_ := version_ s;
     message_subscriber_ := message_subscriber_ s;
     stop_subscriber_ := ss; trace := trace s |}.

(** Appends to the trace. *)
Definition emit (s : t) (es : list event) : t :=
  {| protocol_magic_ := protocol_magic_ s; authority_ := authority_ s;
     heading_buffer_ := heading_buffer_ s; payload_buffer_ := payload_buffer_ s;
     payload_capacity_ := payload_capacity_ s; pending_read_ := pending_read_ s;
     stopped_ := stopped_ s; version_ := version_ s;
     message_subscriber_ := message_subscriber_ s;
     stop_subscriber_ := stop_subscriber_ s; trace := trace s ++ es |}.

(** [proxy::proxy]: the channel is born stopped, its subscribers
    unarmed, the payload buffer sized for the configured maximum
    version. *)
Definition construct (a : authority) (protocol_magic protocol_maximum : N) : t :=
  {| protocol_magic_ := protocol_magic;
     authority_ := a;
     heading_buffer_ := repeat Byte.x00 maximum_size;
     payload_buffer_ :=
       repeat Byte.x00 (N.to_nat (maximum_payload_size protocol_maximum));
     payload_capacity_ := maximum_payload_size protocol_maximum;
     pending_read_ := None;
     stopped_ := true;
     version_ := protocol_maximum;
     message_subscriber_ := {| ms_stopped := true; ms_subscriptions := [] |};
     stop_subscriber_ := {| ss_stopped := true; ss_subscriptions := [] |};
     trace := [] |}.

Definition get_authority (s : t) : authority := authority_ s.

Definition negotiated_version (s : t) : N := version_ s.

Definition set_negotiated_version (s : t) (value : N) : t := with_version s value.

Definition stopped (s : t) : bool := stopped_ s.

(** The hooks of the derived class. *)
Definition handle_activity (s : t) : t := emit s [handle_activity_called].

Definition handle_stopping (s : t) : t := emit s [handle_stopping_called].

Definition read_heading (s : t) : t :=
  if stopped s then s
  else emit (with_pending_read s (Some read_heading_op))
            [async_read_called read_heading_op (length (heading_buffer_ s))].

Definition start (s : t) (h : handler) : t :=
  if negb (stopped s) then emit s [result_handler_called h operation_failed]
  else
    let s := with_stopped s false in
    let s := with_stop_subscriber s (ss_start (stop_subscriber_ s)) in
    let s := with_message_subscriber s (ms_start (message_subscriber_ s)) in
    let s := emit s [result_handler_called h success] in
    read_heading s.

Definition subscribe_stop (s : t) (h : handler) : t :=
  let (ss, called) := ss_subscribe (stop_subscriber_ s) h channel_stopped in
  emit (with_stop_subscriber s ss) called.

Definition subscribe (s : t) (ty : message_type) (h : handler) : t :=
  let (ms, called) := ms_subscribe (message_subscriber_ s) ty h in
  emit (with_message_subscriber s ms) called.

Definition stop (s : t) (ec : code) : t :=
  let s := with_stopped s true in
  let (ms, notified) :=
    ms_broadcast (ms_stop (message_subscriber_ s)) channel_stopped in
  let s := emit (with_message_subscriber s ms) notified in
  let (ss, relayed) := ss_relay (ss_stop (stop_subscriber_ s)) ec in
  let s := emit (with_stop_subscriber s ss) relayed in
  let s := handle_stopping s in
  emit s [socket_close_called].

(** [proxy::stop(const boost_code&)]. *)
Definition stop_boost (s : t) (ec : boost_code) : t :=
  stop s (boost_to_error_code ec).

(** [data_chunk::resize]. *)
Definition resize (b : data_chunk) (n : nat) : data_chunk :=
  firstn n b ++ repeat Byte.x00 (n - length b).

Definition read_payload (s : t) (head : heading) : t :=
  if stopped s then s
  else
    let n := N.to_nat (payload_size head) in
    let s := with_payload_buffer s (resize (payload_buffer_ s) n) in
    emit (with_pending_read s (Some (read_payload_op head)))
         [async_read_called (read_payload_op head) n].

Definition handle_read_heading (s : t) (ec : boost_code) (size : nat) : t :=
  if stopped s then s
  else if boost_is_error ec then stop_boost s ec
  else
    let head := factory_from_data (heading_buffer_ s) in
    if negb (is_valid head) then stop s bad_stream
    else if negb (N.eqb (magic head) (protocol_magic_ s)) then stop s bad_stream
    else if N.ltb (payload_capacity_ s) (payload_size head) then stop s bad_stream
    else handle_activity (read_payload s head).

Definition handle_read_payload (s : t) (ec : boost_code) (size : nat)
           (head : heading) : t :=
  if stopped s then s
  else if boost_is_error ec then stop_boost s ec
  else if negb (N.eqb (checksum head) (bitcoin_checksum (payload_buffer_ s)))
  then stop s bad_stream
  else
    (* Notify subscribers of the new message. *)
    let '(ec', notified, rest) :=
      ms_load (message_subscriber_ s) (heading_type head) (version_ s)
              (payload_buffer_ s) in
    let s := emit s notified in
    let consumed := match rest with [] => true | _ :: _ => false end in
    if code_is_error ec' then stop s ec'
    else if negb consumed then stop s bad_stream
    else read_heading (handle_activity s).

Definition do_send (s : t) (cmd : String.string) (buffer : data_chunk)
           (h : handler) : t :=
  if stopped s then emit s [result_handler_called h channel_stopped]
  else emit s [async_write_called buffer h].

Definition send (s : t) (m : message) (h : handler) : t :=
  let buffer := serialize (version_ s) m (protocol_magic_ s) in
  do_send s (message_command m) buffer h.

Definition handle_send (s : t) (ec : boost_code) (buffer : data_chunk)
           (h : handler) : t :=
  let error := boost_to_error_code ec in
  emit s [result_handler_called h error].

(** *** The channel and its environment *)

(** [async_read] into a buffer: the bytes transferred overwrite the
    front of the buffer, whose size does not change. *)
Definition fill (buffer data : data_chunk) : data_chunk :=
  firstn (length buffer) data ++ skipn (length data) buffer.

(** The socket completes the outstanding read: [data] has been
    transferred into the buffer of the read and the bound handler runs.
    A read that completes without error has transferred as many bytes
    as the buffer holds. *)
Definition complete_read (s : t) (ec : boost_code) (data : data_chunk) : t :=
  match pending_read_ s with
  | None => s
  | Some read_heading_op =>
      handle_read_heading
        (with_pending_read
           (with_heading_buffer s (fill (heading_buffer_ s) data)) None)
        ec (length data)
  | Some (read_payload_op head) =>
      handle_read_payload
        (with_pending_read
           (with_payload_buffer s (fill (payload_buffer_ s) data)) None)
        ec (length data) head
  end.

(** A frame arrives whole: its heading, then its payload (which is
    only read if the heading was accepted). *)
Definition receive_frame (s : t) (heading_bytes payload_bytes : data_chunk) : t :=
  complete_read (complete_read s boost_success heading_bytes)
                boost_success payload_bytes.

(** What can happen to a channel: the calls of its clients and the
    completions of its socket. *)
Inductive action : Type :=
| call_start (h : handler)
| call_stop (ec : code)
| call_send (m : message) (h : handler)
| call_subscribe (ty : message_type) (h : handler)
| call_subscribe_stop (h : handler)
| call_set_negotiated_version (value : N)
| read_completes (ec : boost_code) (data : data_chunk)
| write_completes (ec : boost_code) (buffer : data_chunk) (h : handler).

Definition step (s : t) (a : action) : t :=
  match a with
  | call_start h => start s h
  | call_stop ec => stop s ec
  | call_send m h => send s m h
  | call_subscribe ty h => subscribe s ty h
  | call_subscribe_stop h => subscribe_stop s h
  | call_set_negotiated_version v => set_negotiated_version s v
  | read_completes ec data => complete_read s ec data
  | write_completes ec buffer h => handle_send s ec buffer h
  end.

Definition run (s : t) (acts : list action) : t := fold_left step acts s.

Definition is_start (a : action) : bool :=
  match a with call_start _ => true | _ => false end.

(** [stop] called once for each code of the list, in order. *)
Definition stop_each (s : t) (ecs : list code) : t := fold_left stop ecs s.

(** The versions stored by successive [set_negotiated_version] calls. *)
Fixpoint stored_versions (s : t) (values : list N) : list N :=
  match values with
  | [] => []
  | v :: values' =>
      let s' := set_negotiated_version s v in
      negotiated_version s' :: stored_versions s' values'
  end.

(** Each element is at most the one before it. *)
Fixpoint narrowing (l : list N) : Prop :=
  match l with
  | [] => True
  | a :: l' => match l' with [] => True | b :: _ => (b <= a)%N end /\ narrowing l'
  end.

(** The trace of one [stop(ec)] on [s]: every typed handler is told
    [channel_stopped], every stop handler is told [ec], then the
    stopping hook runs and the socket is closed. *)
Definition stop_trace (s : t) (ec : code) : list event :=
  map (fun th => message_handler_called (snd th) channel_stopped None)
      (ms_subscriptions (message_subscriber_ s))
  ++ map (fun h => stop_handler_called h ec)
         (ss_subscriptions (stop_subscriber_ s))
  ++ [handle_stopping_called; socket_close_called].

(** What stops leave in the trace when no handler is registered. *)
Definition quiet_stops (ecs : list code) : list event :=
  concat (map (fun _ : code => [handle_stopping_called; socket_close_called]) ecs).

(** The handler invocations among the events of a trace. *)
Definition is_notification (e : event) : bool :=
  match e with
  | message_handler_called _ _ _ | stop_handler_called _ _ => true
  | _ => false
  end.

(** The messages handed to typed handlers. *)
Definition is_delivery (e : event) : bool :=
  match e with
  | message_handler_called _ _ (Some _) => true
  | _ => false
  end.

Definition is_read_payload (e : event) : bool :=
  match e with
  | async_read_called (read_payload_op _) _ => true
  | _ => false
  end.

(** The events of [s'] recorded after those of [s]. *)
Definition events_since (s s' : t) : list event :=
  skipn (length (trace s)) (trace s').

(** The frame passes every check of the read loop: heading valid,
    magic as configured, payload within the buffer, checksum right and
    the payload parsed to [m] with nothing left over. *)
Definition well_formed (s : t) (heading_bytes payload_bytes : data_chunk)
           (m : message) : Prop :=
  let head := factory_from_data heading_bytes in
  is_valid head = true
  /\ magic head = protocol_magic_ s
  /\ (payload_size head <= payload_capacity_ s)%N
  /\ checksum head = bitcoin_checksum payload_bytes
  /\ from_data (heading_type head) (version_ s) payload_bytes = (inr m, []).

(** The three checks of [handle_read_heading] on a heading. *)
Definition heading_accepted (s : t) (head : heading) : bool :=
  is_valid head
  && N.eqb (magic head) (protocol_magic_ s)
  && negb (N.ltb (payload_capacity_ s) (payload_size head)).

(** The bytes of a frame as the socket delivers them to a channel that
    waits for a heading: as many heading bytes as the heading buffer
    holds, and as many payload bytes as the heading announces. *)
Definition frame_sized (s : t) (heading_bytes payload_bytes : data_chunk) : Prop :=
  length heading_bytes = length (heading_buffer_ s)
  /\ length payload_bytes
     = N.to_nat (payload_size (factory_from_data heading_bytes)).

(** The ways a frame can be ill-formed. *)
Definition ill_formed (s : t) (heading_bytes payload_bytes : data_chunk) : Prop :=
  let head := factory_from_data heading_bytes in
  let parsed :=
    from_data (heading_type head) (version_ s) payload_bytes in
  is_valid head = false
  \/ magic head <> protocol_magic_ s
  \/ (payload_capacity_ s < payload_size head)%N
  \/ checksum head <> bitcoin_checksum payload_bytes
  \/ (exists kind, fst parsed = inl kind)
  \/ (exists b rest, snd parsed = b :: rest).

(** The frame passes every check before the parse and the codec
    returns a message without consuming the whole payload. *)
Definition trailing_bytes (s : t) (heading_bytes payload_bytes : data_chunk)
           (m : message) : Prop :=
  let head := factory_from_data heading_bytes in
  is_valid head = true
  /\ magic head = protocol_magic_ s
  /\ (payload_size head <= payload_capacity_ s)%N
  /\ checksum head = bitcoin_checksum payload_bytes
  /\ exists b rest,
       from_data (heading_type head) (version_ s) payload_bytes
       = (inr m, b :: rest).

(** The requests made to the socket. *)
Definition is_socket_request (e : event) : bool :=
  match e with
  | async_read_called _ _ | async_write_called _ _ => true
  | _ => false
  end.

(** Neither a message handed to a handler nor a request to the socket. *)
Definition quiet_event (e : event) : Prop :=
  is_delivery e = false /\ is_socket_request e = false.

(** A read asks for a whole heading, or for the payload its heading
    announces, which the payload buffer can hold. *)
Definition read_fits (heading_size : nat) (capacity : N) (e : event) : Prop :=
  match e with
  | async_read_called read_heading_op n => n = heading_size
  | async_read_called (read_payload_op head) n =>
      n = N.to_nat (payload_size head) /\ (payload_size head <= capacity)%N
  | _ => True
  end.

(** The channel is stopped or has a read outstanding. *)
Definition reading_or_stopped (s : t) : Prop :=
  stopped_ s = true \/ exists op, pending_read_ s = Some op.

(** The buffers are as the constructor sized them and every read issued
    so far fits them. *)
Definition buffers_respected (capacity : N) (s : t) : Prop :=
  length (heading_buffer_ s) = maximum_size
  /\ payload_capacity_ s = capacity
  /\ Forall (read_fits maximum_size capacity) (trace s).

(** The version the calls of [acts] leave stored, starting from [v]. *)
Definition version_after (v : N) (acts : list action) : N :=
  fold_left (fun v' a => match a with
                         | call_set_negotiated_version value => value
                         | _ => v'
                         end) acts v.

(** Frames arrive one after the other. *)
Definition receive_frames (s : t) (frames : list (data_chunk * data_chunk)) : t :=
  fold_left (fun s' f => receive_frame s' (fst f) (snd f)) frames s.

(** The handler invocations a well-formed frame with message [m] causes. *)
Definition dispatch_of (s : t) (heading_bytes : data_chunk) (m : message)
  : list event :=
  map (fun h => message_handler_called h success (Some m))
      (handlers_for (message_subscriber_ s)
                    (heading_type (factory_from_data heading_bytes))).

End with_external.

(** *** An implementation of the external interface, for the examples

    The heading follows the wire format (magic, command and payload
    length and checksum at offsets 0, 4, 16 and 20, integers
    little-endian); there are two messages, a ping with its 8-byte nonce
    and an empty verack.  The checksum (the sum of the payload bytes) and
    the payload limits (16 bytes below version 70001, 64 from there on)
    are stand-ins chosen small enough to compute with. *)

Inductive sample_message : Type :=
| ping_message (nonce : N)
| verack_message.

Definition sample_ping : message_type := 1%N.
Definition sample_verack : message_type := 2%N.
Definition sample_unknown : message_type := 0%N.

(** Little-endian integer held in the first [width] bytes. *)
Definition from_little_endian (width : nat) (d : data_chunk) : N :=
  fold_right (fun b acc => (Byte.to_N b + 256 * acc)%N) 0%N (firstn width d).

Fixpoint to_little_endian (width : nat) (n : N) : data_chunk :=
  match width with
  | O => []
  | S width' =>
      match Byte.of_N (n mod 256) with
      | Some b => b
      | None => Byte.x00
      end :: to_little_endian width' (n / 256)
  end.

Fixpoint until_zero (d : data_chunk) : data_chunk :=
  match d with
  | [] => []
  | b :: d' => if Byte.eqb b Byte.x00 then [] else b :: until_zero d'
  end.

Definition sample_factory_from_data (d : data_chunk) : heading :=
  if Nat.ltb (length d) 24
  then {| magic := 0; command := String.EmptyString; payload_size := 0; checksum := 0 |}
  else {| magic := from_little_endian 4 d;
          command :=
            String.string_of_list_byte (until_zero (firstn 12 (skipn 4 d)));
          payload_size := from_little_endian 4 (skipn 16 d);
          checksum := from_little_endian 4 (skipn 20 d) |}.

Definition sample_is_valid (h : heading) : bool :=
  negb (N.eqb (magic h) 0 && N.eqb (payload_size h) 0 && N.eqb (checksum h) 0
        && String.eqb (command h) String.EmptyString).

Definition sample_heading_type (h : heading) : message_type :=
  if String.eqb (command h) "ping" then sample_ping
  else if String.eqb (command h) "verack" then sample_verack
  else sample_unknown.

Definition sample_checksum (d : data_chunk) : N :=
  (fold_right (fun b acc => Byte.to_N b + acc) 0 d mod 4294967296)%N.

Definition sample_from_data (ty : message_type) (version : N) (stream : data_chunk)
  : (N + sample_message) * data_chunk :=
  if N.eqb ty sample_ping then
    if Nat.ltb (length stream) 8 then (inl 0%N, [])
    else (inr (ping_message (from_little_endian 8 stream)), skipn 8 stream)
  else if N.eqb ty sample_verack then (inr verack_message, stream)
  else (inl 1%N, stream).

Definition sample_message_command (m : sample_message) : String.string :=
  match m with
  | ping_message _ => "ping"
  | verack_message => "verack"
  end.

Definition sample_payload (m : sample_message) : data_chunk :=
  match m with
  | ping_message nonce => to_little_endian 8 nonce
  | verack_message => []
  end.

(** The 24 bytes of a heading. *)
Definition sample_heading_bytes (magic_value : N) (cmd : String.string)
           (size check : N) : data_chunk :=
  let name := String.list_byte_of_string cmd in
  to_little_endian 4 magic_value
  ++ firstn 12 (name ++ repeat Byte.x00 12)
  ++ to_little_endian 4 size
  ++ to_little_endian 4 check.

Definition sample_serialize (version : N) (m : sample_message) (magic_value : N)
  : data_chunk :=
  let payload := sample_payload m in
  sample_heading_bytes magic_value (sample_message_command m)
                       (N.of_nat (length payload)) (sample_checksum payload)
  ++ payload.

Definition sample_maximum_payload_size (version : N) : N :=
  if N.ltb version 70001 then 16%N else 64%N.

Definition sample_boost_to_error_code (ec : boost_code) : code :=
  if Z.eqb ec 0 then success else transport_error (Z.to_N ec).

#[export] Instance sample_external : External := {|
  message := sample_message;
  maximum_size := 24;
  maximum_payload_size := sample_maximum_payload_size;
  factory_from_data := sample_factory_from_data;
  is_valid := sample_is_valid;
  heading_type := sample_heading_type;
  bitcoin_checksum := sample_checksum;
  from_data := sample_from_data;
  serialize := sample_serialize;
  message_command := sample_message_command;
  boost_to_error_code := sample_boost_to_error_code
|}.

Definition sample_magic : N := 3652501241%N.

Definition sample_peer : authority := {| ip := 16909060; port := 8333 |}.

(** A running channel at version 70012 with a ping handler (7), a
    verack handler (8) and a stop handler (9). *)
Definition sample_channel : t :=
  run (construct sample_peer sample_magic 70012)
      [call_start 0; call_subscribe sample_ping 7;
       call_subscribe sample_verack 8; call_subscribe_stop 9].

(** A ping frame. *)
Definition sample_ping_payload : data_chunk := sample_payload (ping_message 5).

Definition sample_ping_heading : data_chunk :=
  sample_heading_bytes sample_magic "ping" 8 (sample_checksum sample_ping_payload).

(** The same frame under magic 0. *)
Definition sample_wrong_magic_heading : data_chunk :=
  sample_heading_bytes 0 "ping" 8 (sample_checksum sample_ping_payload).

(** A ping frame with one byte after the nonce, announced and summed
    in its heading. *)
Definition sample_trailing_payload : data_chunk :=
  sample_ping_payload ++ [Byte.x01].

Definition sample_trailing_heading : data_chunk :=
  sample_heading_bytes sample_magic "ping" 9 (sample_checksum sample_trailing_payload).

(** A verack frame: no payload. *)
Definition sample_verack_heading : data_chunk :=
  sample_heading_bytes sample_magic "verack" 0 (sample_checksum []).

(** A heading that announces one byte more than the limit at 70012. *)
Definition sample_oversized_heading : data_chunk :=
  sample_heading_bytes sample_magic "ping" 65 0.

(** A running channel built for 70012 whose peer announced 31402. *)
Definition sample_narrowed_channel : t :=
  run (construct sample_peer sample_magic 70012)
      [call_start 0; call_subscribe sample_ping 7;
       call_set_negotiated_version 31402].

(** A heading that announces one byte more than the limit at 31402. *)
Definition sample_oversized_for_version_heading : data_chunk :=
  sample_heading_bytes sample_magic "ping" 17 0.

End proxy.


(** * Properties of the connection registry *)

Module connections_facts.

Import connections.

Lemma authority_eqb_eq (a b : authority) : authority_eqb a b = true <-> a = b.
Proof.
  unfold authority_eqb. rewrite andb_true_iff, !N.eqb_eq.
  destruct a, b; simpl. split.
  - intros [-> ->]. reflexivity.
  - intros H. inversion H. auto.
Qed.

Section find_if_facts.

Variables (A : Type) (p : A -> bool).

Lemma find_if_le (l : list A) : find_if p l <= length l.
Proof.
  induction l as [|x l IH]; simpl; [lia|]. destruct (p x); lia.
Qed.

(** [find_if] returns [end()] exactly when no element matches. *)
Lemma find_if_end (l : list A) :
  find_if p l = length l <-> forall x, In x l -> p x = false.
Proof.
  induction l as [|x l IH]; simpl.
  - split; [intros _ y []|reflexivity].
  - destruct (p x) eqn:Hx.
    + split; [discriminate|]. intros H. rewrite (H x) in Hx by auto. discriminate.
    + split.
      * intros H y [<-|Hy]; [assumption|]. apply IH; [lia|assumption].
      * intros H. f_equal. apply IH. intros y Hy. apply H. auto.
Qed.

(** Otherwise it points at a matching element. *)
Lemma find_if_found (l : list A) :
  find_if p l <> length l -> exists x, In x l /\ p x = true.
Proof.
  induction l as [|x l IH]; simpl; [congruence|].
  destruct (p x) eqn:Hx.
  - intros _. exists x. auto.
  - intros H. destruct IH as [y [Hy Hp]]; [lia|]. exists y. auto.
Qed.

(** Before the iterator no element matches; the element at it does. *)
Lemma find_if_split (l : list A) :
  find_if p l <> length l ->
  exists x, skipn (find_if p l) l = x :: skipn (S (find_if p l)) l
            /\ p x = true
            /\ forall y, In y (firstn (find_if p l) l) -> p y = false.
Proof.
  induction l as [|x l IH]; simpl; [congruence|].
  destruct (p x) eqn:Hx.
  - intros _. exists x. simpl. repeat split; auto. intros y [].
  - intros H. destruct IH as [y [Hs [Hp Hb]]]; [lia|].
    exists y. repeat split; auto.
    intros z [<-|Hz]; auto.
Qed.

End find_if_facts.

Lemma erase_split (A : Type) (l : list A) (it : nat) (x : A) :
  skipn it l = x :: skipn (S it) l -> l = firstn it l ++ x :: skipn (S it) l.
Proof.
  intros H. rewrite <- H. symmetry. apply firstn_skipn.
Qed.

(** Two members with the same key are the same member, when keys are
    pairwise distinct. *)
Lemma NoDup_map_inj (A B : Type) (f : A -> B) (l : list A) (a b : A) :
  NoDup (map f l) -> In a l -> In b l -> f a = f b -> a = b.
Proof.
  induction l as [|x l IH]; simpl; [intros _ []|].
  intros Hnd Ha Hb Hf. inversion Hnd as [|? ? Hx Hl]; subst.
  destruct Ha as [->|Ha], Hb as [->|Hb]; auto.
  - exfalso. apply Hx. rewrite Hf. apply in_map. assumption.
  - exfalso. apply Hx. rewrite <- Hf. apply in_map. assumption.
Qed.

Lemma NoDup_map_NoDup (A B : Type) (f : A -> B) (l : list A) :
  NoDup (map f l) -> NoDup l.
Proof.
  induction l as [|x l IH]; simpl; intros H; [constructor|].
  inversion H; subst. constructor; auto.
  intros Hin. apply (in_map f) in Hin. contradiction.
Qed.

Lemma NoDup_map_snoc (A B : Type) (f : A -> B) (l : list A) (c : A) :
  NoDup (map f l) -> (forall m, In m l -> f m <> f c) -> NoDup (map f (l ++ [c])).
Proof.
  induction l as [|x l IH]; simpl; intros Hnd Hc.
  - constructor; [intros []|constructor].
  - inversion Hnd; subst. constructor.
    + rewrite map_app, in_app_iff. simpl. intros [Hin|[Heq|[]]]; [contradiction|].
      apply (Hc x); auto.
    + apply IH; auto.
Qed.

Lemma NoDup_map_erase (A B : Type) (f : A -> B) (l : list A) (it : nat) :
  NoDup (map f l) -> NoDup (map f (erase l it)).
Proof.
  intros Hnd. unfold erase.
  destruct (skipn it l) as [|x rest] eqn:Hs.
  - assert (Hlen : length l <= it).
    { destruct (Nat.le_gt_cases (length l) it) as [|Hlt]; [assumption|].
      apply (f_equal (@length A)) in Hs. rewrite length_skipn in Hs. simpl in Hs. lia. }
    rewrite firstn_all2 by assumption.
    rewrite skipn_all2 by lia. rewrite app_nil_r. assumption.
  - assert (Hr : skipn (S it) l = rest).
    { replace (S it) with (1 + it) by reflexivity.
      rewrite <- skipn_skipn, Hs. reflexivity. }
    rewrite Hr. rewrite <- (firstn_skipn it l), Hs, map_app in Hnd. simpl in Hnd.
    rewrite map_app. eapply NoDup_remove_1. eassumption.
Qed.

Section with_heap.

Variable heap : channel_ptr -> channel.

Lemma store_match_true (c entry : channel_ptr) :
  store_match heap c entry = true <->
  channel_authority (heap entry) = channel_authority (heap c)
  \/ nonce (heap entry) = nonce (heap c).
Proof.
  unfold store_match. rewrite orb_true_iff, authority_eqb_eq, N.eqb_eq. tauto.
Qed.

Lemma store_match_false (c entry : channel_ptr) :
  store_match heap c entry = false <->
  channel_authority (heap entry) <> channel_authority (heap c)
  /\ nonce (heap entry) <> nonce (heap c).
Proof.
  rewrite <- not_true_iff_false, store_match_true. split.
  - intros H. split; intros Heq; apply H; auto.
  - intros [Ha Hn] [H|H]; contradiction.
Qed.

Lemma safe_store_outcome (r : t) (c : channel_ptr) :
  store_outcome heap r c (safe_store heap r c).
Proof.
  unfold safe_store.
  destruct (stopped_ r) eqn:Hstop; simpl.
  - apply store_refused_stopped. assumption.
  - destruct (Nat.eqb (find_if (store_match heap c) (channels_ r))
                      (length (channels_ r))) eqn:Hend; simpl.
    + apply Nat.eqb_eq in Hend. rewrite <- Hstop.
      apply store_accepted; [assumption|].
      intros m Hm. apply store_match_false.
      revert m Hm. apply find_if_end. assumption.
    + apply Nat.eqb_neq in Hend.
      destruct (find_if_found _ _ Hend) as [m [Hm Hp]].
      apply store_refused_duplicate with (m := m); [assumption..|].
      apply store_match_true. assumption.
Qed.

(** C4: for every registry state and every candidate channel, store
    returns service_stopped if the registry has been stopped; otherwise
    address_in_use (registry unchanged) if some member has the same
    authority or the same nonce as the candidate; otherwise success,
    with the candidate appended to the membership. *)
Theorem store_contract (r : t) (c : channel_ptr) :
  store_outcome heap r c (store heap r c).
Proof. unfold store. apply safe_store_outcome. Qed.

Lemma unique_members_construct : unique_members heap construct.
Proof. split; constructor. Qed.

Lemma unique_members_step (r : t) (o : op) :
  unique_members heap r -> unique_members heap (apply_op heap r o).
Proof.
  intros [Ha Hn]. destruct o as [c|c|ec]; simpl.
  - pose proof (safe_store_outcome r c) as Hs. unfold store.
    inversion Hs as [Hst Heq|m Hst Hin Hdup Heq|Hst Hfresh Heq];
      simpl; try (split; assumption).
    split; simpl; apply NoDup_map_snoc; auto; intros m Hm; apply Hfresh; assumption.
  - unfold remove, safe_remove.
    destruct (negb _); simpl; [|split; assumption].
    split; simpl; apply NoDup_map_erase; assumption.
  - unfold stop. destruct (negb _); simpl; split; assumption.
Qed.

Lemma unique_members_run_from (ops : list op) (r : t) :
  unique_members heap r -> unique_members heap (run_from heap r ops).
Proof.
  revert r. induction ops as [|o ops IH]; intros r Hr; simpl; [assumption|].
  apply IH. apply unique_members_step. assumption.
Qed.

(** C5: in every registry state reached from the empty registry by a
    sequence of store, remove and stop operations, the members have
    pairwise distinct authorities and pairwise distinct nonces. *)
Theorem registry_uniqueness (ops : list op) :
  unique_members heap (run heap ops).
Proof.
  apply unique_members_run_from. apply unique_members_construct.
Qed.

Lemma find_absent (l : list channel_ptr) (c : channel_ptr) :
  ~ In c l -> find l c = length l.
Proof.
  intros H. apply find_if_end. intros x Hx.
  apply N.eqb_neq. intros ->. contradiction.
Qed.

Lemma remove_absent (r : t) (c : channel_ptr) :
  ~ In c (channels_ r) -> remove r c = (not_found, r).
Proof.
  intros H. unfold remove, safe_remove.
  rewrite (find_absent _ _ H), Nat.eqb_refl. reflexivity.
Qed.

Lemma remove_present (r : t) (c : channel_ptr) :
  In c (channels_ r) -> NoDup (channels_ r) ->
  fst (remove r c) = success
  /\ stopped_ (snd (remove r c)) = stopped_ r
  /\ ~ In c (channels_ (snd (remove r c))).
Proof.
  intros Hin Hnd. unfold remove, safe_remove.
  assert (Hfound : find (channels_ r) c <> length (channels_ r)).
  { intros Hend. apply find_if_end with (x := c) in Hend; [|assumption].
    rewrite N.eqb_refl in Hend. discriminate. }
  destruct (find_if_split _ _ Hfound) as [x [Hs [Hp _]]].
  apply N.eqb_eq in Hp. subst x.
  apply Nat.eqb_neq in Hfound. unfold find in *. rewrite Hfound. simpl.
  repeat split. unfold erase.
  pose proof (erase_split _ _ Hs) as Hl. rewrite Hl in Hnd.
  apply NoDup_remove_2 in Hnd. exact Hnd.
Qed.

(** C10: remove matches members by the identity of the channel object.
    In a registry holding member [a], removing a distinct object [b]
    with the authority and the nonce of [a] returns not_found and
    leaves the registry as it was; removing [a] succeeds, and removing
    it a second time returns not_found and changes nothing. *)
Theorem remove_by_identity (ops : list op) (a b : channel_ptr) :
  In a (channels_ (run heap ops)) ->
  a <> b ->
  channel_authority (heap b) = channel_authority (heap a) ->
  nonce (heap b) = nonce (heap a) ->
  remove (run heap ops) b = (not_found, run heap ops)
  /\ fst (remove (run heap ops) a) = success
  /\ remove (snd (remove (run heap ops) a)) a
     = (not_found, snd (remove (run heap ops) a)).
Proof.
  intros Ha Hab Hauth _.
  destruct (unique_members_run_from ops unique_members_construct) as [Hnd _].
  fold (run heap ops) in Hnd.
  split; [|split].
  - apply remove_absent. intros Hb. apply Hab.
    apply (NoDup_map_inj _ _ a b Hnd); auto.
  - apply remove_present; [assumption|].
    apply NoDup_map_NoDup in Hnd. assumption.
  - apply remove_absent. apply remove_present; [assumption|].
    apply NoDup_map_NoDup in Hnd. assumption.
Qed.

End with_heap.

Lemma remove_by_identity_witness :
  remove (run sample_heap [op_store 1%N]) 2%N
  = (not_found, run sample_heap [op_store 1%N])
  /\ fst (remove (run sample_heap [op_store 1%N]) 1%N) = success
  /\ remove (snd (remove (run sample_heap [op_store 1%N]) 1%N)) 1%N
     = (not_found, snd (remove (run sample_heap [op_store 1%N]) 1%N)).
Proof.
  apply (@remove_by_identity sample_heap [op_store 1%N] 1%N 2%N).
  - simpl. left. reflexivity.
  - discriminate.
  - reflexivity.
  - reflexivity.
Defined.

(** The duplicate scenario: with A (1.2.3.4:8333, nonce 42) stored, a
    channel with A's authority and another nonce is refused, and so is a
    channel with another authority and A's nonce. *)
Example registry_duplicate_scenario :
  fst (store sample_heap (run sample_heap [op_store 1%N]) 3%N) = address_in_use
  /\ fst (store sample_heap (run sample_heap [op_store 1%N]) 4%N) = address_in_use
  /\ store sample_heap (run sample_heap [op_store 1%N]) 5%N
     = (success, {| channels_ := [1%N; 5%N]; stopped_ := false |}).
Proof. repeat split. Qed.

End connections_facts.

(** * Properties of the channel proxy *)

Module proxy_facts.

Import proxy.

Section with_external.

Context {E : External}.

(** ** Traces *)

Lemma events_since_app (s s' : t) (es : list event) :
  trace s' = trace s ++ es -> events_since s s' = es.
Proof.
  intros H. unfold events_since. rewrite H.
  rewrite skipn_app, skipn_all, Nat.sub_diag. reflexivity.
Qed.

Lemma events_since_emit (s : t) (es : list event) :
  events_since s (emit s es) = es.
Proof. apply events_since_app. reflexivity. Qed.

Lemma filter_map_none (A : Type) (f : A -> event) (p : event -> bool) (l : list A) :
  (forall x, p (f x) = false) -> filter p (map f l) = [].
Proof.
  intros H. induction l as [|x l IH]; simpl; [reflexivity|].
  rewrite H. assumption.
Qed.

Lemma filter_map_all (A : Type) (f : A -> event) (p : event -> bool) (l : list A) :
  (forall x, p (f x) = true) -> filter p (map f l) = map f l.
Proof.
  intros H. induction l as [|x l IH]; simpl; [reflexivity|].
  rewrite H, IH. reflexivity.
Qed.

(** ** Buffers *)

Lemma fill_exact (buffer data : data_chunk) :
  length data = length buffer -> fill buffer data = data.
Proof.
  intros H. unfold fill. rewrite <- H, firstn_all, skipn_all2 by lia.
  apply app_nil_r.
Qed.

Lemma resize_length (b : data_chunk) (n : nat) : length (resize b n) = n.
Proof.
  unfold resize. rewrite length_app, length_firstn, repeat_length. lia.
Qed.

(** ** Stop *)

Lemma stop_is_emit (s : t) (ec : code) :
  stop s ec
  = emit (with_stop_subscriber
            (with_message_subscriber
               (with_stopped s true)
               {| ms_stopped := true; ms_subscriptions := [] |})
            {| ss_stopped := true; ss_subscriptions := [] |})
         (stop_trace s ec).
Proof.
  unfold stop, stop_trace, handle_stopping, emit. simpl.
  rewrite <- !app_assoc. reflexivity.
Qed.

Lemma stop_stopped (s : t) (ec : code) : stopped_ (stop s ec) = true.
Proof. reflexivity. Qed.

Lemma stop_trace_app (s : t) (ec : code) :
  trace (stop s ec) = trace s ++ stop_trace s ec.
Proof. rewrite stop_is_emit. reflexivity. Qed.

(** A stop hands no message to anybody. *)
Lemma stop_trace_no_delivery (s : t) (ec : code) :
  filter is_delivery (stop_trace s ec) = [].
Proof.
  unfold stop_trace. rewrite !filter_app.
  rewrite !filter_map_none by reflexivity. reflexivity.
Qed.

Lemma stop_trace_no_read (s : t) (ec : code) :
  filter is_read_payload (stop_trace s ec) = [].
Proof.
  unfold stop_trace. rewrite !filter_app.
  rewrite !filter_map_none by reflexivity. reflexivity.
Qed.

Lemma stop_trace_notifications (s : t) (ec : code) :
  filter is_notification (stop_trace s ec)
  = map (fun th => message_handler_called (snd th) channel_stopped None)
        (ms_subscriptions (message_subscriber_ s))
    ++ map (fun h => stop_handler_called h ec)
           (ss_subscriptions (stop_subscriber_ s)).
Proof.
  unfold stop_trace. rewrite !filter_app.
  rewrite !filter_map_all by reflexivity. simpl. rewrite app_nil_r. reflexivity.
Qed.

(** Once stopped, a further stop finds no handler to tell. *)
Lemma stop_again (s : t) (ec ec' : code) :
  stop_trace (stop s ec) ec' = [handle_stopping_called; socket_close_called].
Proof. reflexivity. Qed.

Lemma quiet_stops_no_notification (ecs : list code) :
  filter is_notification (quiet_stops ecs) = [].
Proof.
  induction ecs as [|ec ecs IH]; [reflexivity|]. exact IH.
Qed.

Lemma stop_each_quiet (ecs : list code) (s : t) :
  ms_subscriptions (message_subscriber_ s) = [] ->
  ss_subscriptions (stop_subscriber_ s) = [] ->
  trace (stop_each s ecs) = trace s ++ quiet_stops ecs.
Proof.
  revert s. induction ecs as [|ec ecs IH]; intros s Hm Hs.
  - simpl. rewrite app_nil_r. reflexivity.
  - change (stop_each s (ec :: ecs)) with (stop_each (stop s ec) ecs).
    rewrite IH by reflexivity.
    rewrite stop_trace_app. unfold stop_trace. rewrite Hm, Hs. simpl.
    rewrite <- app_assoc. reflexivity.
Qed.

Lemma stop_each_trace (ec : code) (ecs : list code) (s : t) :
  trace (stop_each s (ec :: ecs))
  = trace s ++ stop_trace s ec ++ quiet_stops ecs.
Proof.
  change (stop_each s (ec :: ecs)) with (stop_each (stop s ec) ecs).
  rewrite stop_each_quiet by reflexivity.
  rewrite stop_trace_app, app_assoc. reflexivity.
Qed.

(** C6: calling stop once for each code of a non-empty list
    [ec :: ecs] (that is, k = 1 + length ecs times in succession)
    invokes each registered typed message handler exactly once, with
    channel_stopped, and each registered stop handler exactly once,
    with the first code [ec]: the handler invocations of the whole
    sequence are one per registration, in registration order. *)
Theorem stop_idempotent (s : t) (ec : code) (ecs : list code) :
  filter is_notification (events_since s (stop_each s (ec :: ecs)))
  = map (fun th => message_handler_called (snd th) channel_stopped None)
        (ms_subscriptions (message_subscriber_ s))
    ++ map (fun h => stop_handler_called h ec)
           (ss_subscriptions (stop_subscriber_ s)).
Proof.
  rewrite (events_since_app s _ _ (stop_each_trace ec ecs s)).
  rewrite filter_app, quiet_stops_no_notification, app_nil_r.
  apply stop_trace_notifications.
Qed.

(** ** The read loop *)

Ltac branches :=
  repeat match goal with
         | |- context [if ?c then _ else _] => destruct c
         | |- context [ms_load ?a ?b ?c ?d] =>
             destruct (ms_load a b c d) as [[? ?] ?]
         | |- context [match ?x with [] => _ | _ :: _ => _ end] => destruct x
         end.

Lemma read_heading_running (s : t) :
  stopped_ s = false ->
  read_heading s
  = emit (with_pending_read s (Some read_heading_op))
         [async_read_called read_heading_op (length (heading_buffer_ s))].
Proof. intros H. unfold read_heading, stopped. rewrite H. reflexivity. Qed.

Lemma read_payload_running (s : t) (head : heading) :
  stopped_ s = false ->
  read_payload s head
  = emit (with_pending_read
            (with_payload_buffer
               s (resize (payload_buffer_ s) (N.to_nat (payload_size head))))
            (Some (read_payload_op head)))
         [async_read_called (read_payload_op head)
                            (N.to_nat (payload_size head))].
Proof. intros H. unfold read_payload, stopped. rewrite H. reflexivity. Qed.

Lemma handle_read_heading_cases (s : t) (size : nat) :
  stopped_ s = false ->
  handle_read_heading s boost_success size
  = if heading_accepted s (factory_from_data (heading_buffer_ s))
    then handle_activity (read_payload s (factory_from_data (heading_buffer_ s)))
    else stop s bad_stream.
Proof.
  intros H. unfold handle_read_heading, heading_accepted, stopped.
  rewrite H. simpl.
  destruct (is_valid _), (N.eqb _ _), (N.ltb _ _); reflexivity.
Qed.

Lemma handle_read_payload_cases (s : t) (size : nat) (head : heading) :
  stopped_ s = false ->
  handle_read_payload s boost_success size head
  = if negb (N.eqb (checksum head) (bitcoin_checksum (payload_buffer_ s)))
    then stop s bad_stream
    else
      match from_data (heading_type head) (version_ s) (payload_buffer_ s) with
      | (inl kind, _) => stop s (parse_error kind)
      | (inr m, []) =>
          read_heading
            (handle_activity
               (emit s (map (fun h => message_handler_called h success (Some m))
                            (handlers_for (message_subscriber_ s)
                                          (heading_type head)))))
      | (inr m, _ :: _) =>
          stop (emit s (map (fun h => message_handler_called h success (Some m))
                            (handlers_for (message_subscriber_ s)
                                          (heading_type head))))
               bad_stream
      end.
Proof.
  intros H. unfold handle_read_payload, stopped, ms_load.
  rewrite H. simpl.
  destruct (negb _); [reflexivity|].
  destruct (from_data _ _ _) as [[kind|m] [|b rest]]; simpl; try reflexivity.
  - rewrite stop_is_emit. rewrite (stop_is_emit s). unfold emit. simpl.
    rewrite app_nil_r. reflexivity.
  - rewrite stop_is_emit. rewrite (stop_is_emit s). unfold emit. simpl.
    rewrite app_nil_r. reflexivity.
Qed.

(** The completion of a heading read that transferred a whole heading. *)
Lemma complete_read_heading (s : t) (data : data_chunk) :
  pending_read_ s = Some read_heading_op ->
  length data = length (heading_buffer_ s) ->
  complete_read s boost_success data
  = handle_read_heading (with_pending_read (with_heading_buffer s data) None)
                        boost_success (length data).
Proof.
  intros Hp Hl. unfold complete_read. rewrite Hp, (fill_exact _ _ Hl). reflexivity.
Qed.

Lemma complete_read_payload (s : t) (data : data_chunk) (head : heading) :
  pending_read_ s = Some (read_payload_op head) ->
  length data = length (payload_buffer_ s) ->
  complete_read s boost_success data
  = handle_read_payload (with_pending_read (with_payload_buffer s data) None)
                        boost_success (length data) head.
Proof.
  intros Hp Hl. unfold complete_read. rewrite Hp, (fill_exact _ _ Hl). reflexivity.
Qed.

(** The size of the payload buffer is fixed at construction. *)
Lemma step_keeps_capacity (s : t) (a : action) :
  payload_capacity_ (step s a) = payload_capacity_ s.
Proof.
  destruct a; simpl; try reflexivity.
  - unfold start, read_heading, stopped. simpl. branches; reflexivity.
  - unfold send, do_send. branches; reflexivity.
  - unfold subscribe, ms_subscribe. branches; reflexivity.
  - unfold subscribe_stop, ss_subscribe. branches; reflexivity.
  - unfold complete_read. destruct (pending_read_ s) as [[|head]|]; [| |reflexivity].
    + unfold handle_read_heading, read_payload, stopped. simpl.
      branches; reflexivity.
    + unfold handle_read_payload, read_heading, stopped. simpl.
      branches; reflexivity.
Qed.

Lemma run_keeps_capacity (acts : list action) (s : t) :
  payload_capacity_ (run s acts) = payload_capacity_ s.
Proof.
  revert s. induction acts as [|a acts IH]; intros s; [reflexivity|].
  change (run s (a :: acts)) with (run (step s a) acts).
  rewrite IH. apply step_keeps_capacity.
Qed.

(** C3, as amended: on a running channel built for the maximum version
    [protocol_maximum], a heading that announces one byte more than
    [maximum_payload_size protocol_maximum], the size of the payload
    buffer, stops the channel with bad_stream, and no payload read is
    issued. *)
Theorem oversized_heading_rejected (a : authority)
        (protocol_magic protocol_maximum : N) (acts : list action)
        (s : t) (heading_bytes : data_chunk) :
  s = run (construct a protocol_magic protocol_maximum) acts ->
  stopped_ s = false ->
  pending_read_ s = Some read_heading_op ->
  length heading_bytes = length (heading_buffer_ s) ->
  payload_size (factory_from_data heading_bytes)
  = (maximum_payload_size protocol_maximum + 1)%N ->
  stopped_ (complete_read s boost_success heading_bytes) = true
  /\ events_since s (complete_read s boost_success heading_bytes)
     = stop_trace s bad_stream
  /\ filter is_read_payload
            (events_since s (complete_read s boost_success heading_bytes)) = []
  /\ pending_read_ (complete_read s boost_success heading_bytes) = None.
Proof.
  intros Hrun Hs Hp Hl Hsize.
  assert (Hcap : payload_capacity_ s = maximum_payload_size protocol_maximum).
  { rewrite Hrun, run_keeps_capacity. reflexivity. }
  rewrite (complete_read_heading _ _ Hp Hl).
  rewrite handle_read_heading_cases by assumption.
  assert (Hrej : heading_accepted
                   (with_pending_read (with_heading_buffer s heading_bytes) None)
                   (factory_from_data heading_bytes) = false).
  { unfold heading_accepted. simpl. rewrite Hcap, Hsize.
    replace (N.ltb _ _) with true; [apply andb_false_r|].
    symmetry. apply N.ltb_lt. lia. }
  simpl heading_buffer_. rewrite Hrej.
  assert (Hev : events_since s (stop (with_pending_read
                                        (with_heading_buffer s heading_bytes) None)
                                     bad_stream)
                = stop_trace s bad_stream).
  { apply events_since_app. rewrite stop_trace_app. reflexivity. }
  rewrite Hev. repeat split. apply stop_trace_no_read.
Qed.

Lemma heading_accepted_true (s : t) (head : heading) :
  heading_accepted s head = true <->
  is_valid head = true
  /\ magic head = protocol_magic_ s
  /\ (payload_size head <= payload_capacity_ s)%N.
Proof.
  unfold heading_accepted.
  rewrite !andb_true_iff, negb_true_iff, N.eqb_eq, N.ltb_ge. tauto.
Qed.

(** C1: a frame whose heading is valid, with the configured magic and
    a payload length within the payload buffer, whose checksum is that
    of the payload and whose payload the codec parses whole, is
    dispatched: the proxy reads the payload, invokes each handler
    registered for the type of the message exactly once, with success
    and the message, invokes no other handler, does not stop, and
    issues the read of the next heading. *)
Theorem well_formed_frame_dispatched (s : t)
        (heading_bytes payload_bytes : data_chunk) (m : message) :
  stopped_ s = false ->
  pending_read_ s = Some read_heading_op ->
  frame_sized s heading_bytes payload_bytes ->
  well_formed s heading_bytes payload_bytes m ->
  events_since s (receive_frame s heading_bytes payload_bytes)
  = [async_read_called
       (read_payload_op (factory_from_data heading_bytes))
       (N.to_nat (payload_size (factory_from_data heading_bytes)));
     handle_activity_called]
    ++ map (fun h => message_handler_called h success (Some m))
           (handlers_for (message_subscriber_ s)
                         (heading_type (factory_from_data heading_bytes)))
    ++ [handle_activity_called;
        async_read_called read_heading_op (length heading_bytes)]
  /\ filter is_notification
            (events_since s (receive_frame s heading_bytes payload_bytes))
     = map (fun h => message_handler_called h success (Some m))
           (handlers_for (message_subscriber_ s)
                         (heading_type (factory_from_data heading_bytes)))
  /\ stopped_ (receive_frame s heading_bytes payload_bytes) = false
  /\ pending_read_ (receive_frame s heading_bytes payload_bytes)
     = Some read_heading_op
  /\ message_subscriber_ (receive_frame s heading_bytes payload_bytes)
     = message_subscriber_ s
  /\ stop_subscriber_ (receive_frame s heading_bytes payload_bytes)
     = stop_subscriber_ s.
Proof.
  intros Hs Hp [Hlh Hlp] (Hv & Hm & Hc & Hk & Hparse).
  unfold receive_frame.
  rewrite (complete_read_heading _ _ Hp Hlh).
  rewrite handle_read_heading_cases by exact Hs.
  simpl heading_buffer_.
  replace (heading_accepted _ _) with true
    by (symmetry; apply heading_accepted_true; auto).
  rewrite read_payload_running by exact Hs.
  erewrite complete_read_payload;
    [|reflexivity|simpl; rewrite resize_length; exact Hlp].
  rewrite handle_read_payload_cases by exact Hs.
  simpl payload_buffer_. simpl version_.
  rewrite Hk, N.eqb_refl. simpl negb. cbv iota.
  rewrite Hparse.
  rewrite read_heading_running by exact Hs.
  match goal with
  | |- events_since s ?s' = ?es /\ _ =>
      assert (Hev : events_since s s' = es)
  end.
  { apply events_since_app. simpl. rewrite <- !app_assoc. reflexivity. }
  rewrite Hev. split; [reflexivity|]. split.
  - rewrite !filter_app. simpl.
    rewrite filter_map_all by reflexivity. apply app_nil_r.
  - split; [exact Hs|]. repeat split.
Qed.

Lemma complete_read_idle (s : t) (ec : boost_code) (data : data_chunk) :
  pending_read_ s = None -> complete_read s ec data = s.
Proof. intros H. unfold complete_read. rewrite H. reflexivity. Qed.

(** The messages delivered up to a stop are those delivered before it. *)
Lemma deliveries_of_stop (s s0 : t) (ec : code) (before : list event) :
  trace s0 = trace s ++ before ->
  filter is_delivery (events_since s (stop s0 ec)) = filter is_delivery before.
Proof.
  intros H.
  rewrite (events_since_app s (stop s0 ec) (before ++ stop_trace s0 ec)).
  - rewrite filter_app, stop_trace_no_delivery. apply app_nil_r.
  - rewrite stop_trace_app, H, app_assoc. reflexivity.
Qed.

(** The read loop on an ill-formed frame (heading invalid, magic not the
    configured one, payload longer than the payload buffer, checksum
    mismatch, parse error, or bytes left over by the parse): the channel
    stops, and the first failing check decides how.  A heading that is
    refused or a checksum that does not match stops it with bad_stream
    and nothing is delivered; a parse error that is reached stops it with
    that error and nothing is delivered; bytes left over stop it with
    bad_stream after the parsed message has been handed to the handlers of
    its type. *)
Theorem ill_formed_frame_stops (s : t)
        (heading_bytes payload_bytes : data_chunk) :
  stopped_ s = false ->
  pending_read_ s = Some read_heading_op ->
  frame_sized s heading_bytes payload_bytes ->
  ill_formed s heading_bytes payload_bytes ->
  stopped_ (receive_frame s heading_bytes payload_bytes) = true
  /\ exists (ec : code) (s0 : t),
       receive_frame s heading_bytes payload_bytes = stop s0 ec
       /\ message_subscriber_ s0 = message_subscriber_ s
       /\ stop_subscriber_ s0 = stop_subscriber_ s
       /\ (((heading_accepted s (factory_from_data heading_bytes) = false
             \/ checksum (factory_from_data heading_bytes)
                <> bitcoin_checksum payload_bytes)
            /\ ec = bad_stream
            /\ filter is_delivery
                      (events_since s (receive_frame s heading_bytes payload_bytes))
               = [])
           \/ (exists kind,
                 heading_accepted s (factory_from_data heading_bytes) = true
                 /\ checksum (factory_from_data heading_bytes)
                    = bitcoin_checksum payload_bytes
                 /\ fst (from_data (heading_type (factory_from_data heading_bytes))
                                   (version_ s) payload_bytes) = inl kind
                 /\ ec = parse_error kind
                 /\ filter is_delivery
                           (events_since
                              s (receive_frame s heading_bytes payload_bytes))
                    = [])
           \/ (exists m,
                 trailing_bytes s heading_bytes payload_bytes m
                 /\ ec = bad_stream
                 /\ filter is_delivery
                           (events_since
                              s (receive_frame s heading_bytes payload_bytes))
                    = map (fun h => message_handler_called h success (Some m))
                          (handlers_for
                             (message_subscriber_ s)
                             (heading_type (factory_from_data heading_bytes))))).
Proof.
  intros Hs Hp [Hlh Hlp] Hill.
  unfold receive_frame.
  rewrite (complete_read_heading _ _ Hp Hlh).
  rewrite handle_read_heading_cases by exact Hs.
  simpl heading_buffer_.
  change (heading_accepted
            (with_pending_read (with_heading_buffer s heading_bytes) None)
            (factory_from_data heading_bytes))
    with (heading_accepted s (factory_from_data heading_bytes)).
  destruct (heading_accepted s (factory_from_data heading_bytes)) eqn:Hacc.
  - (* the heading is accepted: the payload is read *)
    pose proof Hacc as Hok. apply heading_accepted_true in Hok.
    destruct Hok as (Hv & Hm & Hc).
    rewrite read_payload_running by exact Hs.
    erewrite complete_read_payload;
      [|reflexivity|simpl; rewrite resize_length; exact Hlp].
    rewrite handle_read_payload_cases by exact Hs.
    simpl payload_buffer_. simpl version_.
    destruct (N.eqb _ _) eqn:Hk; simpl negb; cbv iota.
    + apply N.eqb_eq in Hk.
      destruct (from_data _ _ _) as [[kind|m] [|b rest]] eqn:Hparse.
      * split; [reflexivity|].
        eexists; eexists; split; [reflexivity|].
        split; [reflexivity|]. split; [reflexivity|].
        right. left. exists kind. repeat split; auto.
        erewrite deliveries_of_stop; [|simpl; rewrite <- app_assoc; reflexivity].
        reflexivity.
      * split; [reflexivity|].
        eexists; eexists; split; [reflexivity|].
        split; [reflexivity|]. split; [reflexivity|].
        right. left. exists kind. repeat split; auto.
        erewrite deliveries_of_stop; [|simpl; rewrite <- app_assoc; reflexivity].
        reflexivity.
      * exfalso. unfold ill_formed in Hill. rewrite Hparse in Hill. simpl in Hill.
        destruct Hill as [H|[H|[H|[H|[[kind H]|[b [rest H]]]]]]];
          try congruence.
        apply N.lt_nge in H. contradiction.
      * split; [reflexivity|].
        eexists; eexists; split; [reflexivity|].
        split; [reflexivity|]. split; [reflexivity|].
        right. right. exists m. split; [|split; [reflexivity|]].
        -- unfold trailing_bytes. repeat split; auto. exists b, rest. assumption.
        -- erewrite deliveries_of_stop;
             [|simpl; rewrite <- !app_assoc; reflexivity].
           simpl. apply filter_map_all. reflexivity.
    + apply N.eqb_neq in Hk.
      split; [reflexivity|].
      eexists; eexists; split; [reflexivity|].
      split; [reflexivity|]. split; [reflexivity|].
      left. split; [right; exact Hk|]. split; [reflexivity|].
      erewrite deliveries_of_stop; [|simpl; rewrite <- app_assoc; reflexivity].
      reflexivity.
  - (* the heading is refused: no payload is read *)
    rewrite complete_read_idle by reflexivity.
    split; [reflexivity|].
    eexists; eexists; split; [reflexivity|].
    split; [reflexivity|]. split; [reflexivity|].
    left. split; [left; reflexivity|]. split; [reflexivity|].
    erewrite deliveries_of_stop; [|simpl; symmetry; apply app_nil_r].
    reflexivity.
Qed.

(** C2: the code breaks the claim for bytes left over by the parse.  On a
    running channel, a frame that passes every check before the parse and
    whose payload the codec parses to a message without consuming it all
    is first dispatched, each handler registered for the type of the
    message receiving it once, and only then found ill-formed: the
    channel stops with bad_stream after the delivery. *)
Theorem trailing_bytes_dispatched_then_stopped (s : t)
        (heading_bytes payload_bytes : data_chunk) (m : message) :
  stopped_ s = false ->
  pending_read_ s = Some read_heading_op ->
  frame_sized s heading_bytes payload_bytes ->
  trailing_bytes s heading_bytes payload_bytes m ->
  events_since s (receive_frame s heading_bytes payload_bytes)
  = [async_read_called
       (read_payload_op (factory_from_data heading_bytes))
       (N.to_nat (payload_size (factory_from_data heading_bytes)));
     handle_activity_called]
    ++ map (fun h => message_handler_called h success (Some m))
           (handlers_for (message_subscriber_ s)
                         (heading_type (factory_from_data heading_bytes)))
    ++ stop_trace s bad_stream
  /\ filter is_delivery
            (events_since s (receive_frame s heading_bytes payload_bytes))
     = map (fun h => message_handler_called h success (Some m))
           (handlers_for (message_subscriber_ s)
                         (heading_type (factory_from_data heading_bytes)))
  /\ stopped_ (receive_frame s heading_bytes payload_bytes) = true.
Proof.
  intros Hs Hp [Hlh Hlp] (Hv & Hm & Hc & Hk & b & rest & Hparse).
  unfold receive_frame.
  rewrite (complete_read_heading _ _ Hp Hlh).
  rewrite handle_read_heading_cases by exact Hs.
  simpl heading_buffer_.
  replace (heading_accepted _ _) with true
    by (symmetry; apply heading_accepted_true; auto).
  rewrite read_payload_running by exact Hs.
  erewrite complete_read_payload;
    [|reflexivity|simpl; rewrite resize_length; exact Hlp].
  rewrite handle_read_payload_cases by exact Hs.
  simpl payload_buffer_. simpl version_.
  rewrite Hk, N.eqb_refl. simpl negb. cbv iota.
  rewrite Hparse.
  match goal with
  | |- events_since s ?s' = ?es /\ _ =>
      assert (Hev : events_since s s' = es)
  end.
  { apply events_since_app. rewrite stop_trace_app. simpl.
    rewrite <- !app_assoc. reflexivity. }
  rewrite Hev. split; [reflexivity|]. split; [|reflexivity].
  rewrite !filter_app, stop_trace_no_delivery. simpl.
  rewrite filter_map_all by reflexivity. apply app_nil_r.
Qed.

(** ** Send *)

(** Only [start] clears the stopped flag. *)
Lemma step_keeps_stopped (s : t) (a : action) :
  is_start a = false -> stopped_ s = true -> stopped_ (step s a) = true.
Proof.
  intros Ha Hs. destruct a; simpl in *; try discriminate; try assumption.
  - reflexivity.
  - unfold send, do_send, stopped. rewrite Hs. assumption.
  - unfold subscribe. destruct (ms_subscribe _ _ _). assumption.
  - unfold subscribe_stop. destruct (ss_subscribe _ _ _). assumption.
  - unfold complete_read.
    destruct (pending_read_ s) as [[|head]|]; [| |assumption].
    + unfold handle_read_heading, stopped. simpl. rewrite Hs. assumption.
    + unfold handle_read_payload, stopped. simpl. rewrite Hs. assumption.
Qed.

Lemma run_keeps_stopped (acts : list action) (s : t) :
  forallb (fun a => negb (is_start a)) acts = true ->
  stopped_ s = true -> stopped_ (run s acts) = true.
Proof.
  revert s. induction acts as [|a acts IH]; intros s Hacts Hs; [assumption|].
  simpl in Hacts. apply andb_true_iff in Hacts. destruct Hacts as [Ha Hacts].
  apply negb_true_iff in Ha.
  apply (IH (step s a)); [assumption|].
  apply step_keeps_stopped; assumption.
Qed.

(** C7: once the channel has been stopped, and whatever happens to it
    afterwards short of a new start, a send completes by invoking its
    handler with channel_stopped and nothing else: no write reaches
    the socket and the channel is otherwise unchanged. *)
Theorem send_after_stop (s : t) (ec : code) (acts : list action)
        (m : message) (h : handler) :
  forallb (fun a => negb (is_start a)) acts = true ->
  send (run (stop s ec) acts) m h
  = emit (run (stop s ec) acts) [result_handler_called h channel_stopped]
  /\ events_since (run (stop s ec) acts) (send (run (stop s ec) acts) m h)
     = [result_handler_called h channel_stopped].
Proof.
  intros Hacts.
  assert (Hsend : send (run (stop s ec) acts) m h
                  = emit (run (stop s ec) acts)
                         [result_handler_called h channel_stopped]).
  { unfold send, do_send, stopped.
    rewrite (run_keeps_stopped acts (stop s ec) Hacts (stop_stopped s ec)).
    reflexivity. }
  split; [assumption|]. rewrite Hsend. apply events_since_emit.
Qed.

(** C8: when the write of a send completes, with whatever code and a
    transport error in particular, the handler of that send is invoked
    with the translated code and nothing else happens: the stopped
    flag, the subscribers and the outstanding read are as they were, so
    the read loop goes on. *)
Theorem failed_write_reported_only (s : t) (ec : boost_code)
        (buffer : data_chunk) (h : handler) :
  handle_send s ec buffer h
  = emit s [result_handler_called h (boost_to_error_code ec)]
  /\ events_since s (handle_send s ec buffer h)
     = [result_handler_called h (boost_to_error_code ec)]
  /\ stopped_ (handle_send s ec buffer h) = stopped_ s
  /\ message_subscriber_ (handle_send s ec buffer h) = message_subscriber_ s
  /\ stop_subscriber_ (handle_send s ec buffer h) = stop_subscriber_ s
  /\ pending_read_ (handle_send s ec buffer h) = pending_read_ s.
Proof.
  unfold handle_send. repeat split. apply events_since_emit.
Qed.

(** ** Negotiated version *)

Lemma stored_versions_are_values (values : list N) (s : t) :
  stored_versions s values = values.
Proof.
  revert s. induction values as [|v values IH]; intros s; simpl; [reflexivity|].
  rewrite IH. reflexivity.
Qed.

(** C9, as amended: the negotiated version is initially the configured
    maximum, and set_negotiated_version stores its argument as it is:
    the versions stored by a sequence of calls are the values passed,
    and so they are narrowed step by step exactly when the callers pass
    values that are. *)
Theorem negotiated_version_follows_callers (a : authority)
        (protocol_magic protocol_maximum : N) (values : list N) :
  negotiated_version (construct a protocol_magic protocol_maximum)
  = protocol_maximum
  /\ stored_versions (construct a protocol_magic protocol_maximum) values = values
  /\ (narrowing (protocol_maximum :: values) <->
      narrowing (negotiated_version (construct a protocol_magic protocol_maximum)
                 :: stored_versions (construct a protocol_magic protocol_maximum)
                                    values)).
Proof.
  rewrite stored_versions_are_values.
  split; [reflexivity|]. split; [reflexivity|].
  unfold negotiated_version. simpl version_. tauto.
Qed.

End with_external.

Lemma well_formed_frame_dispatched_witness :
  filter is_notification
         (events_since sample_channel
            (receive_frame sample_channel sample_ping_heading sample_ping_payload))
  = [message_handler_called 7 success (Some (ping_message 5))]
  /\ stopped_ (receive_frame sample_channel sample_ping_heading sample_ping_payload)
     = false.
Proof.
  destruct (@well_formed_frame_dispatched
              sample_external sample_channel sample_ping_heading sample_ping_payload
              (ping_message 5))
    as (_ & Hcalls & Hrun & _).
  - reflexivity.
  - reflexivity.
  - split; reflexivity.
  - repeat split; vm_compute; discriminate.
  - split; [exact Hcalls|exact Hrun].
Defined.

Lemma ill_formed_frame_stops_witness :
  stopped_ (receive_frame sample_channel sample_wrong_magic_heading
                          sample_ping_payload) = true.
Proof.
  apply (@ill_formed_frame_stops
           sample_external sample_channel sample_wrong_magic_heading sample_ping_payload).
  - reflexivity.
  - reflexivity.
  - split; reflexivity.
  - right. left. vm_compute. discriminate.
Defined.

Lemma trailing_bytes_dispatched_then_stopped_witness :
  filter is_delivery
         (events_since sample_channel
            (receive_frame sample_channel sample_trailing_heading
                           sample_trailing_payload))
  = [message_handler_called 7 success (Some (ping_message 5))]
  /\ stopped_ (receive_frame sample_channel sample_trailing_heading
                             sample_trailing_payload) = true.
Proof.
  destruct (@trailing_bytes_dispatched_then_stopped
              sample_external sample_channel sample_trailing_heading
              sample_trailing_payload (ping_message 5))
    as (_ & Hcalls & Hstop).
  - reflexivity.
  - reflexivity.
  - split; reflexivity.
  - repeat split; try (vm_compute; discriminate).
    exists Byte.x01, []. reflexivity.
  - split; [exact Hcalls|exact Hstop].
Defined.

(** The whole trace of the sample frame with one byte after the ping
    nonce: the ping handler has received the message of the frame when
    the channel stops with bad_stream. *)
Lemma trailing_bytes_frame_is_delivered :
  stopped_ sample_channel = false
  /\ pending_read_ sample_channel = Some read_heading_op
  /\ frame_sized sample_channel sample_trailing_heading sample_trailing_payload
  /\ ill_formed sample_channel sample_trailing_heading sample_trailing_payload
  /\ events_since sample_channel
       (receive_frame sample_channel sample_trailing_heading sample_trailing_payload)
     = [async_read_called
          (read_payload_op (factory_from_data sample_trailing_heading)) 9;
        handle_activity_called;
        message_handler_called 7 success (Some (ping_message 5));
        message_handler_called 7 channel_stopped None;
        message_handler_called 8 channel_stopped None;
        stop_handler_called 9 bad_stream;
        handle_stopping_called;
        socket_close_called].
Proof.
  split; [reflexivity|]. split; [reflexivity|]. split; [split; reflexivity|].
  split; [|reflexivity].
  do 5 right. exists Byte.x01, []. reflexivity.
Qed.

Lemma oversized_heading_rejected_witness :
  stopped_ (complete_read sample_channel boost_success sample_oversized_heading)
  = true
  /\ filter is_read_payload
            (events_since sample_channel
               (complete_read sample_channel boost_success
                              sample_oversized_heading)) = [].
Proof.
  destruct (@oversized_heading_rejected
              sample_external sample_peer sample_magic 70012
              [call_start 0; call_subscribe sample_ping 7;
               call_subscribe sample_verack 8; call_subscribe_stop 9]
              sample_channel sample_oversized_heading)
    as (Hstop & _ & Hread & _).
  - reflexivity.
  - reflexivity.
  - reflexivity.
  - reflexivity.
  - reflexivity.
  - split; [exact Hstop|exact Hread].
Defined.

(** C3 as stated fails when the payload limit grows with the version:
    on a channel built for 70012 and narrowed to 31402, a heading that
    announces one byte more than the limit at 31402 is accepted and its
    payload is read. *)
Lemma oversized_for_version_is_read :
  stopped_ sample_narrowed_channel = false
  /\ pending_read_ sample_narrowed_channel = Some read_heading_op
  /\ payload_size (factory_from_data sample_oversized_for_version_heading)
     = (maximum_payload_size (negotiated_version sample_narrowed_channel) + 1)%N
  /\ stopped_ (complete_read sample_narrowed_channel boost_success
                             sample_oversized_for_version_heading) = false
  /\ events_since sample_narrowed_channel
       (complete_read sample_narrowed_channel boost_success
                      sample_oversized_for_version_heading)
     = [async_read_called
          (read_payload_op
             (factory_from_data sample_oversized_for_version_heading)) 17;
        handle_activity_called].
Proof. repeat split. Qed.

Lemma send_after_stop_witness :
  send (run (stop sample_channel bad_stream)
            [call_subscribe sample_ping 3; read_completes 995%Z []])
       (ping_message 5) 4
  = emit (run (stop sample_channel bad_stream)
              [call_subscribe sample_ping 3; read_completes 995%Z []])
         [result_handler_called 4 channel_stopped]
  /\ events_since
       (run (stop sample_channel bad_stream)
            [call_subscribe sample_ping 3; read_completes 995%Z []])
       (send (run (stop sample_channel bad_stream)
                  [call_subscribe sample_ping 3; read_completes 995%Z []])
             (ping_message 5) 4)
     = [result_handler_called 4 channel_stopped].
Proof.
  apply (@send_after_stop sample_external sample_channel bad_stream
           [call_subscribe sample_ping 3; read_completes 995%Z []]
           (ping_message 5) 4).
  reflexivity.
Defined.

Lemma negotiated_version_follows_callers_witness :
  narrowing (negotiated_version (construct sample_peer sample_magic 70012)
             :: stored_versions (construct sample_peer sample_magic 70012)
                                [70001%N; 31402%N]).
Proof.
  apply (@negotiated_version_follows_callers
           sample_external sample_peer sample_magic 70012 [70001%N; 31402%N]).
  simpl. lia.
Defined.

(** C9 as stated fails: nothing stops a caller from raising the version.
    A channel configured for 70012 is narrowed to 60000 and then set back
    to 70012, above the value stored before. *)
Lemma negotiated_version_can_be_raised :
  stored_versions (construct sample_peer sample_magic 70012) [60000%N; 70012%N]
  = [60000%N; 70012%N]
  /\ ~ narrowing
       (negotiated_version (construct sample_peer sample_magic 70012)
        :: stored_versions (construct sample_peer sample_magic 70012)
                           [60000%N; 70012%N]).
Proof.
  split; [reflexivity|]. simpl. lia.
Qed.

End proxy_facts.

(** * Further properties of the connection registry *)

Module connections_more.

Import connections connections_facts.

Lemma find_if_app_absent (A : Type) (p : A -> bool) (l l' : list A) :
  (forall x, In x l -> p x = false) ->
  find_if p (l ++ l') = length l + find_if p l'.
Proof.
  induction l as [|x l IH]; simpl; intros H; [reflexivity|].
  rewrite (H x) by auto. rewrite IH by auto. reflexivity.
Qed.

Lemma erase_last (A : Type) (l : list A) (x : A) :
  erase (l ++ [x]) (length l) = l.
Proof.
  unfold erase. induction l as [|y l IH]; simpl; [reflexivity|].
  f_equal. exact IH.
Qed.

(** A member is found at its first occurrence, and erasing there removes
    that occurrence only. *)
Lemma find_member (l : list channel_ptr) (c : channel_ptr) :
  In c l ->
  exists l1 l2,
    l = l1 ++ c :: l2 /\ ~ In c l1
    /\ find l c <> length l /\ erase l (find l c) = l1 ++ l2.
Proof.
  intros Hin.
  assert (Hfound : find l c <> length l).
  { intros Hend. apply find_if_end with (x := c) in Hend; [|assumption].
    rewrite N.eqb_refl in Hend. discriminate. }
  destruct (find_if_split _ _ Hfound) as [x [Hs [Hp Hb]]].
  apply N.eqb_eq in Hp. subst x.
  exists (firstn (find l c) l), (skipn (S (find l c)) l).
  split; [apply erase_split; assumption|]. split; [|split; [assumption|reflexivity]].
  intros Hc. apply Hb in Hc. rewrite N.eqb_refl in Hc. discriminate.
Qed.

Lemma remove_member (r : t) (c : channel_ptr) :
  In c (channels_ r) ->
  exists l1 l2,
    channels_ r = l1 ++ c :: l2 /\ ~ In c l1
    /\ remove r c = (success, {| channels_ := l1 ++ l2; stopped_ := stopped_ r |}).
Proof.
  intros Hin. destruct (find_member _ _ Hin) as (l1 & l2 & Hl & Hn & Hf & He).
  exists l1, l2. split; [assumption|]. split; [assumption|].
  unfold remove, safe_remove. apply Nat.eqb_neq in Hf. rewrite Hf, He. reflexivity.
Qed.

Lemma remove_outsider (r : t) (c : channel_ptr) :
  ~ In c (channels_ r) -> remove r c = (not_found, r).
Proof.
  intros H. unfold remove, safe_remove.
  rewrite (find_absent _ _ H), Nat.eqb_refl. reflexivity.
Qed.

Lemma in_dec_ptr (c : channel_ptr) (l : list channel_ptr) : In c l \/ ~ In c l.
Proof. destruct (in_dec N.eq_dec c l); auto. Qed.

(** X1: remove reports success exactly for a member and not_found exactly
    for a channel that is not one; in the second case the registry is left
    as it was. *)
Theorem remove_reports_membership (r : t) (c : channel_ptr) :
  (fst (remove r c) = success <-> In c (channels_ r))
  /\ (remove r c = (not_found, r) <-> ~ In c (channels_ r)).
Proof.
  destruct (in_dec_ptr c (channels_ r)) as [Hin|Hout].
  - destruct (remove_member _ _ Hin) as (l1 & l2 & _ & _ & Hr).
    rewrite Hr. simpl. split; split; auto; try discriminate.
    intros H. contradiction.
  - rewrite (remove_outsider _ _ Hout). simpl. split; split; auto; try discriminate.
    intros H. contradiction.
Qed.

(** X2: remove takes out one occurrence of the channel and nothing else:
    every other channel is a member afterwards exactly if it was before,
    and the stopped flag is untouched (a stopped registry still lets its
    members go). *)
Theorem remove_keeps_others (r : t) (c x : channel_ptr) :
  x <> c ->
  (In x (channels_ (snd (remove r c))) <-> In x (channels_ r))
  /\ stopped_ (snd (remove r c)) = stopped_ r.
Proof.
  intros Hx. destruct (in_dec_ptr c (channels_ r)) as [Hin|Hout].
  - destruct (remove_member _ _ Hin) as (l1 & l2 & Hl & _ & Hr).
    rewrite Hr, Hl. simpl. split; [|reflexivity].
    rewrite !in_app_iff. simpl. split; [tauto|].
    intros [H|[H|H]]; auto. congruence.
  - rewrite (remove_outsider _ _ Hout). simpl. tauto.
Qed.

Lemma remove_keeps_others_witness :
  (In 5%N (channels_ (snd (remove {| channels_ := [1%N; 5%N]; stopped_ := true |} 1%N)))
   <-> In 5%N [1%N; 5%N])
  /\ stopped_ (snd (remove {| channels_ := [1%N; 5%N]; stopped_ := true |} 1%N)) = true.
Proof.
  apply (@remove_keeps_others {| channels_ := [1%N; 5%N]; stopped_ := true |} 1%N 5%N).
  discriminate.
Defined.

Section with_heap.

Variable heap : channel_ptr -> channel.

Lemma store_match_self (c : channel_ptr) : store_match heap c c = true.
Proof. apply store_match_true. auto. Qed.

(** What a successful store says of the registry before it. *)
Lemma store_success (r : t) (c : channel_ptr) :
  fst (store heap r c) = success ->
  stopped_ r = false
  /\ (forall m, In m (channels_ r) -> store_match heap c m = false)
  /\ store heap r c
     = (success, {| channels_ := channels_ r ++ [c]; stopped_ := stopped_ r |}).
Proof.
  intros H. unfold store in *.
  pose proof (safe_store_outcome heap r c) as Ho.
  inversion Ho as [Hst Heq|m Hst Hin Hdup Heq|Hst Hfresh Heq];
    rewrite <- Heq in H; simpl in H; try discriminate.
  split; [assumption|]. split; [|reflexivity].
  intros m Hm. apply store_match_false. apply Hfresh. assumption.
Qed.

Lemma safe_exists_true (r : t) (address : authority) :
  safe_exists heap r address = true <->
  exists m, In m (channels_ r) /\ channel_authority (heap m) = address.
Proof.
  unfold safe_exists. rewrite negb_true_iff, Nat.eqb_neq. split.
  - intros H. destruct (find_if_found _ _ H) as [m [Hm Hp]].
    exists m. split; [assumption|]. apply authority_eqb_eq. assumption.
  - intros [m [Hm Ha]] Hend.
    apply find_if_end with (x := m) in Hend; [|assumption].
    apply authority_eqb_eq in Ha. simpl in Hend. congruence.
Qed.

(** X3: exists answers whether some member has the authority asked for. *)
Theorem exists_iff_member (r : t) (address : authority) :
  safe_exists heap r address = true <->
  exists m, In m (channels_ r) /\ channel_authority (heap m) = address.
Proof. apply safe_exists_true. Qed.

(** X4: the number of members grows by one with a store that reports
    success and is unchanged by one that does not; it shrinks by one with
    a remove that reports success and is unchanged by one that does not. *)
Theorem count_follows_results (r : t) (c : channel_ptr) :
  safe_count (snd (store heap r c))
  = safe_count r + succeeded (fst (store heap r c))
  /\ safe_count r
     = safe_count (snd (remove r c)) + succeeded (fst (remove r c)).
Proof.
  split.
  - unfold store. pose proof (safe_store_outcome heap r c) as Ho.
    inversion Ho as [Hst Heq|m Hst Hin Hdup Heq|Hst Hfresh Heq];
      unfold safe_count, succeeded; simpl; try lia.
    rewrite length_app. reflexivity.
  - destruct (in_dec_ptr c (channels_ r)) as [Hin|Hout].
    + destruct (remove_member _ _ Hin) as (l1 & l2 & Hl & _ & Hr).
      rewrite Hr. unfold safe_count, succeeded. rewrite Hl. simpl.
      rewrite !length_app. simpl. lia.
    + rewrite (remove_outsider _ _ Hout). unfold safe_count, succeeded. simpl. lia.
Qed.

(** X5: removing a channel right after it was stored gives back the
    registry as it was before the store. *)
Theorem store_then_remove (r : t) (c : channel_ptr) :
  fst (store heap r c) = success ->
  remove (snd (store heap r c)) c = (success, r).
Proof.
  intros H. destruct (store_success _ _ H) as (Hst & Hfresh & Heq).
  rewrite Heq. simpl.
  assert (Hout : forall x, In x (channels_ r) -> N.eqb c x = false).
  { intros x Hx. apply N.eqb_neq. intros <-.
    pose proof (Hfresh c Hx) as Hc.
    rewrite store_match_self in Hc. discriminate. }
  assert (Hfind : find (channels_ r ++ [c]) c = length (channels_ r)).
  { unfold find. etransitivity; [apply find_if_app_absent; exact Hout|].
    simpl. rewrite N.eqb_refl. lia. }
  unfold remove, safe_remove. cbn [channels_ stopped_]. rewrite Hfind.
  replace (Nat.eqb _ _) with false
    by (symmetry; apply Nat.eqb_neq; rewrite length_app; simpl; lia).
  cbn [negb]. rewrite erase_last. destruct r; reflexivity.
Qed.

(** X6: store never evicts: the members after a store are the members
    before it, in the same order, followed by the candidate if and only if
    the store reported success. *)
Theorem store_adds_only_candidate (r : t) (c : channel_ptr) :
  channels_ (snd (store heap r c))
  = channels_ r ++ (if code_is_error (fst (store heap r c)) then [] else [c])
  /\ stopped_ (snd (store heap r c)) = stopped_ r.
Proof.
  unfold store. pose proof (safe_store_outcome heap r c) as Ho.
  inversion Ho as [Hst Heq|m Hst Hin Hdup Heq|Hst Hfresh Heq]; simpl;
    rewrite ?app_nil_r; auto.
Qed.

(** X7: a channel whose authority exists already is refused by a running
    registry with address_in_use, whatever its nonce. *)
Theorem known_authority_refused (r : t) (c : channel_ptr) :
  stopped_ r = false ->
  safe_exists heap r (channel_authority (heap c)) = true ->
  store heap r c = (address_in_use, r).
Proof.
  intros Hst Hex. apply safe_exists_true in Hex. destruct Hex as [m [Hm Ha]].
  unfold store. pose proof (safe_store_outcome heap r c) as Ho.
  inversion Ho as [Hs Heq|m' Hs Hin Hdup Heq|Hs Hfresh Heq]; try reflexivity.
  - congruence.
  - exfalso. destruct (Hfresh m Hm) as [Hne _]. contradiction.
Qed.

(** X8: after a store that reports success, exists answers true for the
    authority of the stored channel. *)
Theorem stored_authority_exists (r : t) (c : channel_ptr) :
  fst (store heap r c) = success ->
  safe_exists heap (snd (store heap r c)) (channel_authority (heap c)) = true.
Proof.
  intros H. destruct (store_success _ _ H) as (_ & _ & Heq). rewrite Heq. simpl.
  apply safe_exists_true. exists c. simpl. split; [|reflexivity].
  apply in_or_app. right. left. reflexivity.
Qed.

Lemma apply_op_keeps_stopped (r : t) (o : op) :
  stopped_ r = true -> stopped_ (apply_op heap r o) = true.
Proof.
  intros H. destruct o as [c|c|ec]; simpl.
  - unfold store, safe_store. rewrite H. simpl. assumption.
  - unfold remove, safe_remove. destruct (negb _); simpl; assumption.
  - unfold stop. rewrite H. simpl. assumption.
Qed.

Lemma run_from_keeps_stopped (ops : list op) (r : t) :
  stopped_ r = true -> stopped_ (run_from heap r ops) = true.
Proof.
  revert r. induction ops as [|o ops IH]; intros r H; [assumption|].
  apply (IH (apply_op heap r o)). apply apply_op_keeps_stopped. assumption.
Qed.

(** X9: the registry never leaves the stopped state: after a stop, and
    whatever stores, removes and stops follow, a store returns
    service_stopped and changes nothing. *)
Theorem stopped_registry_stays_closed (before after : list op) (ec : code)
        (c : channel_ptr) :
  store heap (run heap (before ++ op_stop ec :: after)) c
  = (service_stopped, run heap (before ++ op_stop ec :: after)).
Proof.
  assert (H : stopped_ (run heap (before ++ op_stop ec :: after)) = true).
  { unfold run, run_from. rewrite fold_left_app. simpl.
    apply run_from_keeps_stopped. unfold stop.
    destruct (stopped_ (fold_left _ before construct)) eqn:Hs; simpl;
      [exact Hs|reflexivity]. }
  unfold store, safe_store. rewrite H. reflexivity.
Qed.

(** X10: a channel removed from a running registry can come back: after
    the remove of a member, a channel with the authority and the nonce of
    that member (the member itself, or a new connection of the peer) is
    stored with success. *)
Theorem removed_peer_can_return (ops : list op) (c c' : channel_ptr) :
  In c (channels_ (run heap ops)) ->
  stopped_ (run heap ops) = false ->
  channel_authority (heap c') = channel_authority (heap c) ->
  nonce (heap c') = nonce (heap c) ->
  fst (store heap (snd (remove (run heap ops) c)) c') = success.
Proof.
  intros Hin Hst Ha Hn.
  destruct (unique_members_run_from ops (unique_members_construct heap))
    as [Hua Hun].
  fold (run heap ops) in Hua, Hun.
  destruct (remove_member _ _ Hin) as (l1 & l2 & Hl & _ & Hr).
  rewrite Hr. simpl. rewrite Hl, map_app in Hua, Hun. simpl in Hua, Hun.
  apply NoDup_remove_2 in Hua. apply NoDup_remove_2 in Hun.
  rewrite <- map_app in Hua, Hun.
  unfold store.
  match goal with |- fst (safe_store heap ?r0 c') = _ =>
    pose proof (safe_store_outcome heap r0 c') as Ho end.
  inversion Ho as [Hs Heq|m Hs Hm Hdup Heq|Hs Hfresh Heq]; simpl in *.
  - congruence.
  - exfalso. destruct Hdup as [Hd|Hd].
    + apply Hua. rewrite <- Ha, <- Hd.
      apply (in_map (fun x => channel_authority (heap x))). assumption.
    + apply Hun. rewrite <- Hn, <- Hd.
      apply (in_map (fun x => nonce (heap x))). assumption.
  - reflexivity.
Qed.

End with_heap.

(** X11: stop is idempotent and leaves the membership alone: the first
    stop tells every member to stop, with its code and in membership
    order, a stop of a stopped registry tells nobody, and neither changes
    the list of members. *)
Theorem stop_once (r : t) (ec ec' : code) :
  snd (stop r ec)
  = (if stopped_ r then [] else map (fun c => (c, ec)) (channels_ r))
  /\ channels_ (fst (stop r ec)) = channels_ r
  /\ stopped_ (fst (stop r ec)) = true
  /\ stop (fst (stop r ec)) ec' = (fst (stop r ec), []).
Proof.
  unfold stop. destruct (stopped_ r) eqn:H; simpl; rewrite ?H; auto.
Qed.

Lemma remove_each_permutation (order l : list channel_ptr) (b : bool) :
  Permutation order l ->
  remove_each {| channels_ := l; stopped_ := b |} order
  = {| channels_ := []; stopped_ := b |}.
Proof.
  revert l. induction order as [|x order IH]; intros l Hp.
  - apply Permutation_nil in Hp. subst. reflexivity.
  - assert (Hin : In x (channels_ {| channels_ := l; stopped_ := b |})).
    { simpl. apply (Permutation_in x Hp). left. reflexivity. }
    destruct (remove_member _ _ Hin) as (l1 & l2 & Hl & _ & Hr).
    simpl in Hl. subst l.
    unfold remove_each. simpl fold_left. rewrite Hr. simpl snd.
    apply IH. apply Permutation_cons_app_inv with (a := x). assumption.
Qed.

(** X12: stop converges: when each channel that stop told to stop is then
    removed (the stop handlers may run in any order), the registry ends
    empty and stopped, and a store on it returns service_stopped. *)
Theorem stop_then_removes_empty (heap : channel_ptr -> channel) (r : t)
        (ec : code) (order : list channel_ptr) (c : channel_ptr) :
  stopped_ r = false ->
  Permutation order (map fst (snd (stop r ec))) ->
  remove_each (fst (stop r ec)) order = {| channels_ := []; stopped_ := true |}
  /\ store heap (remove_each (fst (stop r ec)) order) c
     = (service_stopped, {| channels_ := []; stopped_ := true |}).
Proof.
  intros Hst Hp. unfold stop in *. rewrite Hst in *. simpl in *.
  rewrite map_map in Hp. simpl in Hp. rewrite map_id in Hp.
  rewrite (remove_each_permutation _ Hp). split; reflexivity.
Qed.

Lemma store_then_remove_witness :
  remove (snd (store sample_heap (run sample_heap [op_store 1%N]) 5%N)) 5%N
  = (success, run sample_heap [op_store 1%N]).
Proof.
  apply (@store_then_remove sample_heap (run sample_heap [op_store 1%N]) 5%N).
  reflexivity.
Defined.

Lemma known_authority_refused_witness :
  store sample_heap (run sample_heap [op_store 1%N]) 3%N
  = (address_in_use, run sample_heap [op_store 1%N]).
Proof.
  apply (@known_authority_refused sample_heap (run sample_heap [op_store 1%N]) 3%N);
    reflexivity.
Defined.

Lemma stored_authority_exists_witness :
  safe_exists sample_heap (snd (store sample_heap construct 1%N))
              (channel_authority (sample_heap 1%N)) = true.
Proof.
  apply (@stored_authority_exists sample_heap construct 1%N). reflexivity.
Defined.

Lemma removed_peer_can_return_witness :
  fst (store sample_heap
             (snd (remove (run sample_heap [op_store 1%N; op_store 5%N]) 1%N)) 2%N)
  = success.
Proof.
  apply (@removed_peer_can_return sample_heap [op_store 1%N; op_store 5%N] 1%N 2%N).
  - simpl. left. reflexivity.
  - reflexivity.
  - reflexivity.
  - reflexivity.
Defined.

Lemma stop_then_removes_empty_witness :
  remove_each
    (fst (stop (run sample_heap [op_store 1%N; op_store 5%N]) service_stopped))
    [5%N; 1%N]
  = {| channels_ := []; stopped_ := true |}
  /\ store sample_heap
       (remove_each
          (fst (stop (run sample_heap [op_store 1%N; op_store 5%N]) service_stopped))
          [5%N; 1%N]) 6%N
     = (service_stopped, {| channels_ := []; stopped_ := true |}).
Proof.
  apply (@stop_then_removes_empty sample_heap
           (run sample_heap [op_store 1%N; op_store 5%N]) service_stopped
           [5%N; 1%N] 6%N).
  - reflexivity.
  - simpl. apply perm_swap.
Defined.

End connections_more.

(** * Further properties of the channel proxy *)

Module proxy_more.

Import proxy proxy_facts.

Section with_external.

Context {E : External}.

Ltac cases :=
  repeat match goal with
         | |- context [if ?c then _ else _] => destruct c eqn:?
         | |- context [ms_load ?a ?b ?c ?d] =>
             destruct (ms_load a b c d) as [[? ?] ?] eqn:?
         | |- context [match ?x with [] => _ | _ :: _ => _ end] => destruct x eqn:?
         end.

(** X13: start on a stopped channel reports success to its handler and
    only then issues the first heading read, leaving the channel running;
    a start on the channel it leaves reports operation_failed and does
    nothing else. *)
Theorem start_once (s : t) (h h' : handler) :
  stopped_ s = true ->
  events_since s (start s h)
  = [result_handler_called h success;
     async_read_called read_heading_op (length (heading_buffer_ s))]
  /\ stopped_ (start s h) = false
  /\ pending_read_ (start s h) = Some read_heading_op
  /\ start (start s h) h' = emit (start s h) [result_handler_called h' operation_failed].
Proof.
  intros Hs.
  assert (Hstart : start s h
                   = emit (with_pending_read
                             (with_message_subscriber
                                (with_stop_subscriber
                                   (with_stopped s false)
                                   (ss_start (stop_subscriber_ s)))
                                (ms_start (message_subscriber_ s)))
                             (Some read_heading_op))
                          [result_handler_called h success;
                           async_read_called read_heading_op
                                             (length (heading_buffer_ s))]).
  { unfold start, stopped. rewrite Hs. simpl.
    unfold read_heading, stopped, emit. simpl. rewrite <- app_assoc. reflexivity. }
  rewrite Hstart. split; [apply events_since_app; reflexivity|].
  repeat split.
Qed.

(** X14: a read that completes with a transport error on a running
    channel stops the channel with the translated error: the handlers are
    notified as by stop with that code, the heading or payload is not
    examined, no message is delivered and no further read is issued. *)
Theorem read_failure_stops (s : t) (ec : boost_code) (data : data_chunk)
        (op : read_op) :
  stopped_ s = false ->
  pending_read_ s = Some op ->
  boost_is_error ec = true ->
  stopped_ (complete_read s ec data) = true
  /\ events_since s (complete_read s ec data)
     = stop_trace s (boost_to_error_code ec)
  /\ pending_read_ (complete_read s ec data) = None.
Proof.
  intros Hs Hp Hec. unfold complete_read. rewrite Hp.
  destruct op as [|head].
  - unfold handle_read_heading, stopped. simpl. rewrite Hs, Hec.
    unfold stop_boost. split; [reflexivity|]. split; [|reflexivity].
    apply events_since_app. rewrite stop_trace_app. reflexivity.
  - unfold handle_read_payload, stopped. simpl. rewrite Hs, Hec.
    unfold stop_boost. split; [reflexivity|]. split; [|reflexivity].
    apply events_since_app. rewrite stop_trace_app. reflexivity.
Qed.

(** X15: on a running channel a send serializes the message under the
    version stored by the latest set_negotiated_version and the
    configured magic and hands those bytes to the socket as one write; the
    handler of the send is invoked once, when the write completes, with
    the translated completion code. *)
Theorem send_then_complete (s : t) (v : N) (m : message) (h : handler)
        (ec : boost_code) :
  stopped_ s = false ->
  events_since s
    (run s [call_set_negotiated_version v; call_send m h;
            write_completes ec (serialize v m (protocol_magic_ s)) h])
  = [async_write_called (serialize v m (protocol_magic_ s)) h;
     result_handler_called h (boost_to_error_code ec)].
Proof.
  intros Hs. apply events_since_app. simpl.
  unfold send, do_send, stopped. simpl. rewrite Hs. simpl.
  rewrite <- app_assoc. reflexivity.
Qed.

(** ** After stop *)

Lemma Forall_map_event (A : Type) (P : event -> Prop) (f : A -> event) (l : list A) :
  (forall x, P (f x)) -> Forall P (map f l).
Proof.
  intros H. apply Forall_forall. intros e He.
  apply in_map_iff in He. destruct He as [x [<- _]]. apply H.
Qed.

Lemma stop_trace_quiet (s : t) (ec : code) : Forall quiet_event (stop_trace s ec).
Proof.
  unfold stop_trace. rewrite !Forall_app. repeat split.
  - apply Forall_map_event. intros x. split; reflexivity.
  - apply Forall_map_event. intros x. split; reflexivity.
  - repeat constructor.
Qed.

Lemma step_stopped_quiet (s : t) (a : action) :
  is_start a = false -> stopped_ s = true ->
  exists es, trace (step s a) = trace s ++ es /\ Forall quiet_event es.
Proof.
  intros Ha Hs. destruct a; simpl in *; try discriminate.
  - exists (stop_trace s ec). split; [apply stop_trace_app|apply stop_trace_quiet].
  - exists [result_handler_called h channel_stopped].
    unfold send, do_send, stopped. rewrite Hs. split; [reflexivity|].
    repeat constructor.
  - unfold subscribe, ms_subscribe. destruct (ms_stopped _); simpl.
    + eexists. split; [reflexivity|]. repeat constructor.
    + exists []. split; [reflexivity|constructor].
  - unfold subscribe_stop, ss_subscribe. destruct (ss_stopped _); simpl.
    + eexists. split; [reflexivity|]. repeat constructor.
    + exists []. split; [reflexivity|constructor].
  - exists []. split; [symmetry; apply app_nil_r|constructor].
  - exists []. split; [|constructor]. rewrite app_nil_r.
    unfold complete_read. destruct (pending_read_ s) as [[|head]|]; [| |reflexivity].
    + unfold handle_read_heading, stopped. simpl. rewrite Hs. reflexivity.
    + unfold handle_read_payload, stopped. simpl. rewrite Hs. reflexivity.
  - eexists. split; [reflexivity|]. repeat constructor.
Qed.

Lemma run_stopped_quiet (acts : list action) (s : t) :
  forallb (fun a => negb (is_start a)) acts = true ->
  stopped_ s = true ->
  exists es, trace (run s acts) = trace s ++ es /\ Forall quiet_event es.
Proof.
  revert s. induction acts as [|a acts IH]; intros s Hacts Hs.
  - exists []. split; [symmetry; apply app_nil_r|constructor].
  - simpl in Hacts. apply andb_true_iff in Hacts. destruct Hacts as [Ha Hacts].
    apply negb_true_iff in Ha.
    destruct (step_stopped_quiet s a Ha Hs) as [es1 [Ht1 Hq1]].
    destruct (IH (step s a) Hacts (step_keeps_stopped s a Ha Hs)) as [es2 [Ht2 Hq2]].
    exists (es1 ++ es2). split.
    + change (run s (a :: acts)) with (run (step s a) acts).
      rewrite Ht2, Ht1, app_assoc. reflexivity.
    + apply Forall_app. split; assumption.
Qed.

(** X16: nothing comes in or goes out after a stop: whatever calls and
    completions follow it, short of a new start, no message is handed to
    a handler and no read or write is issued on the socket. *)
Theorem silent_after_stop (s : t) (ec : code) (acts : list action) :
  forallb (fun a => negb (is_start a)) acts = true ->
  Forall quiet_event (events_since (stop s ec) (run (stop s ec) acts)).
Proof.
  intros Hacts.
  destruct (run_stopped_quiet acts (stop s ec) Hacts (stop_stopped s ec))
    as [es [Ht Hq]].
  rewrite (events_since_app _ _ _ Ht). assumption.
Qed.

(** ** The read cycle *)

Lemma step_keeps_reading (s : t) (a : action) :
  reading_or_stopped s -> reading_or_stopped (step s a).
Proof.
  unfold reading_or_stopped. intros H. destruct a; simpl.
  - unfold start, read_heading, stopped. simpl.
    destruct (stopped_ s) eqn:Hs; simpl.
    + right. eexists. reflexivity.
    + destruct H as [H|H]; [congruence|right; exact H].
  - left. reflexivity.
  - unfold send, do_send. destruct (stopped s); exact H.
  - unfold subscribe. destruct (ms_subscribe _ _ _). exact H.
  - unfold subscribe_stop. destruct (ss_subscribe _ _ _). exact H.
  - exact H.
  - unfold complete_read.
    case_eq (pending_read_ s); [intros [|head] Hp|intros Hp; exact H].
    + unfold handle_read_heading, read_payload, stop_boost, stopped. simpl.
      cases;
        solve [left; reflexivity | left; assumption | right; eexists; reflexivity].
    + unfold handle_read_payload, read_heading, stop_boost, stopped. simpl.
      cases;
        solve [left; reflexivity | left; assumption | right; eexists; reflexivity].
  - exact H.
Qed.

(** X17: the read cycle continues until stop: in every state a channel
    reaches from its construction, through whatever calls and
    completions, it is stopped or has a read outstanding on its socket. *)
Theorem read_outstanding_until_stop (a : authority)
        (protocol_magic protocol_maximum : N) (acts : list action) :
  reading_or_stopped (run (construct a protocol_magic protocol_maximum) acts).
Proof.
  assert (H : reading_or_stopped (construct a protocol_magic protocol_maximum)).
  { left. reflexivity. }
  revert H. generalize (construct a protocol_magic protocol_maximum) as s.
  induction acts as [|x acts IH]; intros s H; [exact H|].
  apply (IH (step s x)). apply step_keeps_reading. exact H.
Qed.

(** ** Buffers *)

Lemma fill_length (buffer data : data_chunk) :
  length (fill buffer data) = length buffer.
Proof.
  unfold fill. rewrite length_app, length_firstn, length_skipn. lia.
Qed.

Section sized.

Variable capacity : N.

Lemma stop_trace_fits (s : t) (ec : code) : Forall (read_fits maximum_size capacity) (stop_trace s ec).
Proof.
  unfold stop_trace. rewrite !Forall_app. repeat split.
  - apply Forall_map_event. intros x. exact I.
  - apply Forall_map_event. intros x. exact I.
  - repeat constructor.
Qed.

Lemma respected_emit (s : t) (es : list event) :
  buffers_respected capacity s -> Forall (read_fits maximum_size capacity) es ->
  buffers_respected capacity (emit s es).
Proof.
  intros (Hh & Hc & Ht) Hes. repeat split; try assumption.
  simpl. apply Forall_app. split; assumption.
Qed.

Lemma respected_stop (s : t) (ec : code) :
  buffers_respected capacity s -> buffers_respected capacity (stop s ec).
Proof.
  intros (Hh & Hc & Ht). repeat split; try assumption.
  rewrite stop_trace_app. apply Forall_app. split; [assumption|apply stop_trace_fits].
Qed.

Lemma respected_read_heading (s : t) :
  buffers_respected capacity s -> buffers_respected capacity (read_heading s).
Proof.
  intros H. unfold read_heading. destruct (stopped s); [assumption|].
  destruct H as (Hh & Hc & Ht). repeat split; try assumption.
  simpl. apply Forall_app. split; [assumption|].
  constructor; [exact Hh|constructor].
Qed.

Lemma respected_read_payload (s : t) (head : heading) :
  (payload_size head <= capacity)%N ->
  buffers_respected capacity s -> buffers_respected capacity (read_payload s head).
Proof.
  intros Hsize H. unfold read_payload. destruct (stopped s); [assumption|].
  destruct H as (Hh & Hc & Ht). repeat split; try assumption.
  simpl. apply Forall_app. split; [assumption|].
  constructor; [split; [reflexivity|assumption]|constructor].
Qed.

Lemma respected_handle_read_heading (s : t) (ec : boost_code) (size : nat) :
  buffers_respected capacity s ->
  buffers_respected capacity (handle_read_heading s ec size).
Proof.
  intros H. unfold handle_read_heading, stop_boost.
  destruct (stopped s); [assumption|].
  destruct (boost_is_error ec); [apply respected_stop; assumption|].
  destruct (negb (is_valid _)); [apply respected_stop; assumption|].
  destruct (negb (N.eqb _ _)); [apply respected_stop; assumption|].
  destruct (N.ltb _ _) eqn:Hlt; [apply respected_stop; assumption|].
  apply respected_emit; [|repeat constructor].
  apply respected_read_payload; [|assumption].
  apply N.ltb_ge in Hlt. destruct H as (_ & Hc & _). rewrite <- Hc. assumption.
Qed.

Lemma respected_handle_read_payload (s : t) (ec : boost_code) (size : nat)
      (head : heading) :
  buffers_respected capacity s ->
  buffers_respected capacity (handle_read_payload s ec size head).
Proof.
  intros H. unfold handle_read_payload, stop_boost.
  destruct (stopped s); [assumption|].
  destruct (boost_is_error ec); [apply respected_stop; assumption|].
  destruct (negb (N.eqb _ _)); [apply respected_stop; assumption|].
  assert (Hload : forall ec' notified rest,
             ms_load (message_subscriber_ s) (heading_type head) (version_ s)
                     (payload_buffer_ s) = (ec', notified, rest) ->
             Forall (read_fits maximum_size capacity) notified).
  { unfold ms_load. intros ec' notified rest.
    destruct (from_data _ _ _) as [[kind|m] rest']; intros Heq;
      inversion Heq; subst; [constructor|].
    apply Forall_map_event. intros x. exact I. }
  destruct (ms_load _ _ _ _) as [[ec' notified] rest] eqn:Hl.
  specialize (Hload _ _ _ eq_refl).
  destruct (code_is_error ec');
    [apply respected_stop; apply respected_emit; assumption|].
  destruct rest; simpl.
  - apply respected_read_heading. apply respected_emit; [|repeat constructor].
    apply respected_emit; assumption.
  - apply respected_stop. apply respected_emit; assumption.
Qed.

Lemma respected_step (s : t) (a : action) :
  buffers_respected capacity s -> buffers_respected capacity (step s a).
Proof.
  intros H. destruct a; simpl.
  - unfold start. destruct (negb (stopped s)).
    + apply respected_emit; [assumption|repeat constructor].
    + apply respected_read_heading. apply respected_emit; [|repeat constructor].
      exact H.
  - apply respected_stop. assumption.
  - unfold send, do_send. destruct (stopped s);
      (apply respected_emit; [assumption|repeat constructor]).
  - unfold subscribe, ms_subscribe. destruct (ms_stopped _).
    + apply respected_emit; [assumption|repeat constructor].
    + apply respected_emit; [exact H|constructor].
  - unfold subscribe_stop, ss_subscribe. destruct (ss_stopped _).
    + apply respected_emit; [assumption|repeat constructor].
    + apply respected_emit; [exact H|constructor].
  - exact H.
  - unfold complete_read. destruct (pending_read_ s) as [[|head]|]; [| |assumption].
    + apply respected_handle_read_heading.
      destruct H as (Hh & Hc & Ht). repeat split; try assumption.
      simpl. rewrite fill_length. assumption.
    + apply respected_handle_read_payload. exact H.
  - apply respected_emit; [assumption|repeat constructor].
Qed.

Lemma respected_run (acts : list action) (s : t) :
  buffers_respected capacity s -> buffers_respected capacity (run s acts).
Proof.
  revert s. induction acts as [|a acts IH]; intros s H; [assumption|].
  apply (IH (step s a)). apply respected_step. assumption.
Qed.

End sized.

(** X18: the reads never outgrow the buffers: through whatever calls and
    completions a channel goes from its construction on, every heading
    read asks for exactly a heading, and every payload read asks for the
    length its heading announced, which is at most the size of the payload
    buffer fixed by the constructor (so that the resize never
    reallocates). *)
Theorem reads_fit_buffers (a : authority) (protocol_magic protocol_maximum : N)
        (acts : list action) :
  Forall (read_fits maximum_size (maximum_payload_size protocol_maximum))
         (trace (run (construct a protocol_magic protocol_maximum) acts)).
Proof.
  apply respected_run.
  repeat split.
  - simpl. apply repeat_length.
  - constructor.
Qed.

(** ** The negotiated version *)

Lemma step_version (s : t) (a : action) :
  version_ (step s a) = version_after (version_ s) [a].
Proof.
  destruct a; simpl; try reflexivity.
  - unfold start, read_heading, stopped. simpl. cases; reflexivity.
  - unfold send, do_send. cases; reflexivity.
  - unfold subscribe, ms_subscribe. cases; reflexivity.
  - unfold subscribe_stop, ss_subscribe. cases; reflexivity.
  - unfold complete_read. destruct (pending_read_ s) as [[|head]|]; [| |reflexivity].
    + unfold handle_read_heading, read_payload, stopped. simpl. cases; reflexivity.
    + unfold handle_read_payload, read_heading, stopped. simpl. cases; reflexivity.
Qed.

(** X19: the proxy never changes the negotiated version on its own:
    through whatever calls and completions, frames received included, the
    stored version is the value of the latest set_negotiated_version
    call, or the initial one if there was none. *)
Theorem negotiated_version_only_set (s : t) (acts : list action) :
  negotiated_version (run s acts) = version_after (negotiated_version s) acts.
Proof.
  unfold negotiated_version. revert s.
  induction acts as [|a acts IH]; intros s; [reflexivity|].
  change (run s (a :: acts)) with (run (step s a) acts).
  rewrite IH, step_version. reflexivity.
Qed.

(** ** Frames in sequence *)

(** Two states with the same fields are the same state. *)
Lemma state_ext (s1 s2 : t) :
  protocol_magic_ s1 = protocol_magic_ s2 ->
  authority_ s1 = authority_ s2 ->
  heading_buffer_ s1 = heading_buffer_ s2 ->
  payload_buffer_ s1 = payload_buffer_ s2 ->
  payload_capacity_ s1 = payload_capacity_ s2 ->
  pending_read_ s1 = pending_read_ s2 ->
  stopped_ s1 = stopped_ s2 ->
  version_ s1 = version_ s2 ->
  message_subscriber_ s1 = message_subscriber_ s2 ->
  stop_subscriber_ s1 = stop_subscriber_ s2 ->
  trace s1 = trace s2 ->
  s1 = s2.
Proof.
  destruct s1, s2. simpl. intros. subst. reflexivity.
Qed.

Lemma receive_well_formed_frame (s : t) (heading_bytes payload_bytes : data_chunk)
      (m : message) :
  stopped_ s = false ->
  pending_read_ s = Some read_heading_op ->
  frame_sized s heading_bytes payload_bytes ->
  well_formed s heading_bytes payload_bytes m ->
  receive_frame s heading_bytes payload_bytes
  = emit (with_payload_buffer (with_heading_buffer s heading_bytes) payload_bytes)
         ([async_read_called
             (read_payload_op (factory_from_data heading_bytes))
             (N.to_nat (payload_size (factory_from_data heading_bytes)));
           handle_activity_called]
          ++ dispatch_of s heading_bytes m
          ++ [handle_activity_called;
              async_read_called read_heading_op (length heading_bytes)]).
Proof.
  intros Hs Hp [Hlh Hlp] (Hv & Hm & Hc & Hk & Hparse).
  unfold receive_frame.
  rewrite (complete_read_heading _ _ Hp Hlh).
  rewrite handle_read_heading_cases by exact Hs.
  simpl heading_buffer_.
  replace (heading_accepted _ _) with true
    by (symmetry; apply heading_accepted_true; auto).
  rewrite read_payload_running by exact Hs.
  erewrite complete_read_payload;
    [|reflexivity|simpl; rewrite resize_length; exact Hlp].
  rewrite handle_read_payload_cases by exact Hs.
  simpl payload_buffer_. simpl version_.
  rewrite Hk, N.eqb_refl. simpl negb. cbv iota.
  rewrite Hparse.
  rewrite read_heading_running by exact Hs.
  apply state_ext; try reflexivity.
  - simpl. symmetry. exact Hp.
  - unfold dispatch_of. simpl. rewrite <- !app_assoc. reflexivity.
Qed.

Lemma dispatch_of_notifications (s : t) (heading_bytes : data_chunk) (m : message) :
  filter is_notification (dispatch_of s heading_bytes m)
  = dispatch_of s heading_bytes m.
Proof. unfold dispatch_of. apply filter_map_all. reflexivity. Qed.

Lemma receive_frames_trace (frames : list (data_chunk * data_chunk * message))
      (s : t) :
  stopped_ s = false ->
  pending_read_ s = Some read_heading_op ->
  Forall (fun f => frame_sized s (fst (fst f)) (snd (fst f))
                   /\ well_formed s (fst (fst f)) (snd (fst f)) (snd f)) frames ->
  exists es,
    trace (receive_frames s (map fst frames)) = trace s ++ es
    /\ filter is_notification es
       = flat_map (fun f => dispatch_of s (fst (fst f)) (snd f)) frames
    /\ stopped_ (receive_frames s (map fst frames)) = false
    /\ pending_read_ (receive_frames s (map fst frames)) = Some read_heading_op.
Proof.
  revert s. induction frames as [|[[hb p] m] frames IH]; intros s Hs Hp Hall.
  - exists []. simpl. rewrite app_nil_r. auto.
  - inversion Hall as [|f fs [Hsized Hwf] Hrest]; subst. simpl in Hsized, Hwf.
    pose proof (receive_well_formed_frame Hs Hp Hsized Hwf) as Hone.
    change (receive_frames s (map fst ((hb, p, m) :: frames)))
      with (receive_frames (receive_frame s hb p) (map fst frames)).
    rewrite Hone.
    match goal with
    | |- context [receive_frames ?s1 _] =>
        destruct (IH s1) as (es & Ht & Hn & Hst & Hpe)
    end.
    + exact Hs.
    + exact Hp.
    + apply Forall_forall. intros f Hf.
      rewrite Forall_forall in Hrest. destruct (Hrest f Hf) as [[Hl1 Hl2] Hw].
      split; [|exact Hw]. split; [|exact Hl2].
      simpl. rewrite Hl1. symmetry. apply Hsized.
    + exists (([async_read_called
                   (read_payload_op (factory_from_data hb))
                   (N.to_nat (payload_size (factory_from_data hb)));
                 handle_activity_called]
                ++ dispatch_of s hb m
                ++ [handle_activity_called;
                    async_read_called read_heading_op (length hb)]) ++ es).
      split; [rewrite Ht; symmetry; exact (app_assoc (trace s) _ es)|].
      split; [|split; assumption].
      rewrite !filter_app, Hn, dispatch_of_notifications.
      cbn [filter is_notification]. rewrite app_nil_r. reflexivity.
Qed.

(** X20: messages are dispatched in wire order: when well-formed frames
    arrive one after the other on a running channel, the handler
    invocations are those of the first frame, then those of the second,
    and so on, each frame reaching the handlers of its type once, and the
    channel is left running and waiting for the next heading. *)
Theorem frames_dispatched_in_order
        (frames : list (data_chunk * data_chunk * message)) (s : t) :
  stopped_ s = false ->
  pending_read_ s = Some read_heading_op ->
  Forall (fun f => frame_sized s (fst (fst f)) (snd (fst f))
                   /\ well_formed s (fst (fst f)) (snd (fst f)) (snd f)) frames ->
  filter is_notification (events_since s (receive_frames s (map fst frames)))
  = flat_map (fun f => dispatch_of s (fst (fst f)) (snd f)) frames
  /\ stopped_ (receive_frames s (map fst frames)) = false
  /\ pending_read_ (receive_frames s (map fst frames)) = Some read_heading_op.
Proof.
  intros Hs Hp Hall.
  destruct (receive_frames_trace Hs Hp Hall) as (es & Ht & Hn & Hst & Hpe).
  rewrite (events_since_app _ _ _ Ht). auto.
Qed.

End with_external.

Lemma frames_dispatched_in_order_witness :
  filter is_notification
         (events_since sample_channel
            (receive_frames sample_channel
               [(sample_ping_heading, sample_ping_payload);
                (sample_verack_heading, [])]))
  = [message_handler_called 7 success (Some (ping_message 5));
     message_handler_called 8 success (Some verack_message)].
Proof.
  destruct (@frames_dispatched_in_order sample_external
              [(sample_ping_heading, sample_ping_payload, ping_message 5);
               (sample_verack_heading, [], verack_message)]
              sample_channel)
    as (Hcalls & _).
  - reflexivity.
  - reflexivity.
  - repeat constructor; vm_compute; discriminate.
  - exact Hcalls.
Defined.

Lemma silent_after_stop_witness :
  Forall (@quiet_event sample_external)
         (events_since
            (stop sample_channel bad_stream)
            (run (stop sample_channel bad_stream)
                 [read_completes 995%Z []; @call_send sample_external (ping_message 5) 4;
                  call_subscribe sample_ping 3; call_stop channel_stopped])).
Proof.
  apply (@silent_after_stop sample_external sample_channel bad_stream
           [read_completes 995%Z []; @call_send sample_external (ping_message 5) 4;
            call_subscribe sample_ping 3; call_stop channel_stopped]).
  reflexivity.
Defined.

Lemma start_once_witness :
  events_since (construct sample_peer sample_magic 70012)
               (start (construct sample_peer sample_magic 70012) 0)
  = [result_handler_called 0 success; async_read_called read_heading_op 24]
  /\ start (start (construct sample_peer sample_magic 70012) 0) 1
     = emit (start (construct sample_peer sample_magic 70012) 0)
            [result_handler_called 1 operation_failed].
Proof.
  destruct (@start_once sample_external
              (construct sample_peer sample_magic 70012) 0 1)
    as (Hev & _ & _ & Hagain).
  - reflexivity.
  - split; [exact Hev|exact Hagain].
Defined.

Lemma read_failure_stops_witness :
  stopped_ (complete_read sample_channel 104%Z []) = true
  /\ events_since sample_channel (complete_read sample_channel 104%Z [])
     = [message_handler_called 7 channel_stopped None;
        message_handler_called 8 channel_stopped None;
        stop_handler_called 9 (transport_error 104);
        handle_stopping_called; socket_close_called].
Proof.
  destruct (@read_failure_stops sample_external sample_channel 104%Z []
              read_heading_op)
    as (Hs & Hev & _).
  - reflexivity.
  - reflexivity.
  - reflexivity.
  - split; [exact Hs|exact Hev].
Defined.

Lemma send_then_complete_witness :
  events_since sample_channel
    (run sample_channel
         [call_set_negotiated_version 31402; call_send (ping_message 5) 4;
          write_completes 0%Z (sample_serialize 31402 (ping_message 5) sample_magic) 4])
  = [async_write_called (sample_serialize 31402 (ping_message 5) sample_magic) 4;
     result_handler_called 4 success].
Proof.
  apply (@send_then_complete sample_external sample_channel 31402
           (ping_message 5) 4 0%Z).
  reflexivity.
Defined.

End proxy_more.
